(** * GeminiDirector: the catalog query logic and the traffic logger

    A shallow embedding of the three source files of the repository:

    - [services/docService.ts]  ([getDocById]);
    - [services/logger.ts]      ([createLog]), with [types.ts];
    - [App.tsx]                 ([filteredDocs], [displayDocs], [addLog],
                                 [clearLogs]).

    JavaScript arrays and objects have an identity, so they live in explicit
    stores: a store of [ReferenceDoc] arrays for the catalog queries, and a
    heap of plain objects and arrays for the payloads handed to the logger.
    The platform functions the code calls ([String.prototype.toLowerCase],
    [String.prototype.includes], [Array.prototype.filter], [find], [sort],
    [JSON.stringify], [JSON.parse]) are modelled next to their callers. *)

From Stdlib Require Import ZArith Ascii String OrderedTypeEx Sorting.Sorted Permutation.
From stdpp Require Import list strings relations.

(** ** Strings

    A string is given by the bytes of its UTF-8 encoding. On well-formed
    strings, equality and the substring relation of the UTF-16 code units
    are those of the bytes, and an ASCII character is its own byte. *)

Module JSString.

(** The lower-case form of an ASCII character. *)
Definition lower_ascii (c : ascii) : ascii :=
  let n := nat_of_ascii c in
  if ((65 <=? n)%nat && (n <=? 90)%nat)%bool then ascii_of_nat (n + 32) else c.

(** The cased letters and the case-ignorable characters of the ASCII range
    (apostrophe, full stop, colon, circumflex, grave accent). *)
Definition is_cased (c : ascii) : bool :=
  let n := nat_of_ascii c in
  (((65 <=? n)%nat && (n <=? 90)%nat) || ((97 <=? n)%nat && (n <=? 122)%nat))%bool.

Definition is_case_ignorable (c : ascii) : bool :=
  let n := nat_of_ascii c in
  ((n =? 39)%nat || (n =? 46)%nat || (n =? 58)%nat || (n =? 94)%nat || (n =? 96)%nat)%bool.

(** The Greek sigmas: the capital U+03A3 (bytes CE A3), the small U+03C3
    (CF 83) and the final U+03C2 (CF 82). *)
Definition is_capital_sigma (c d : ascii) : bool :=
  ((nat_of_ascii c =? 206)%nat && (nat_of_ascii d =? 163)%nat)%bool.

Definition is_small_sigma (c d : ascii) : bool :=
  ((nat_of_ascii c =? 207)%nat &&
   ((nat_of_ascii d =? 131)%nat || (nat_of_ascii d =? 130)%nat))%bool.

(** After any case-ignorable characters, [s] goes on with a cased letter. *)
Fixpoint followed_by_cased (s : string) : bool :=
  match s with
  | EmptyString => false
  | String c s' =>
      if is_case_ignorable c then followed_by_cased s'
      else
        (is_cased c ||
         match s' with
         | String d _ => is_capital_sigma c d || is_small_sigma c d
         | EmptyString => false
         end)%bool
  end.

(** [String.prototype.toLowerCase] on the ASCII characters and the Greek
    sigmas. [A]-[Z] become [a]-[z]. The capital sigma becomes the final
    sigma when it ends a word (Final_Sigma: a cased letter comes before it,
    case-ignorable characters apart, and none comes after it), the small
    sigma otherwise. [before] tells whether the last character read that is
    not case-ignorable is a cased letter. The case mappings of the other
    characters are not modelled: their bytes are kept, and they count as
    uncased. *)
Fixpoint lower_from (before : bool) (s : string) : string :=
  match s with
  | EmptyString => EmptyString
  | String c s' =>
      match s' with
      | String d s'' =>
          if is_capital_sigma c d then
            String (ascii_of_nat 207)
              (String (ascii_of_nat
                         (if (before && negb (followed_by_cased s''))%bool
                          then 130 else 131))
                 (lower_from true s''))
          else if is_small_sigma c d then
            String c (String d (lower_from true s''))
          else
            String (lower_ascii c)
              (lower_from (if is_case_ignorable c then before else is_cased c) s')
      | EmptyString => String (lower_ascii c) EmptyString
      end
  end.

Definition toLowerCase (s : string) : string := lower_from false s.

(** [s.startsWith(t)]. *)
Fixpoint startsWith (s t : string) {struct t} : bool :=
  match t, s with
  | EmptyString, _ => true
  | String _ _, EmptyString => false
  | String b t', String a s' => (Ascii.eqb a b && startsWith s' t')%bool
  end.

(** [s.includes(t)]: [t] occurs in [s] at some index. *)
Fixpoint includes (s t : string) : bool :=
  (startsWith s t ||
   match s with
   | EmptyString => false
   | String _ s' => includes s' t
   end)%bool.

(** [s.slice(0, n)] on an ASCII string; the code calls it on a UUID. *)
Fixpoint slice0 (n : nat) (s : string) : string :=
  match n, s with
  | O, _ => EmptyString
  | S _, EmptyString => EmptyString
  | S n', String c s' => String c (slice0 n' s')
  end.

End JSString.

(** ** types.ts *)

Inductive DocCategory := SETUP | CORE | MULTIMODAL | ADVANCED | SCHEMAS.

(** The string value of each member of the string enum. *)
Definition DocCategory_value (c : DocCategory) : string :=
  match c with
  | SETUP => "SETUP"
  | CORE => "CORE"
  | MULTIMODAL => "MULTIMODAL"
  | ADVANCED => "ADVANCED"
  | SCHEMAS => "SCHEMAS"
  end%string.

Inductive ExecutionPattern := SYNC | ASYNC | STREAM | LONG_POLLING | SETUP_PATTERN.

Record LaunchConfig := {
  entry_point : string;
  required_params : list string;
  optional_params : list string;
  execution_pattern : ExecutionPattern;
  output_type : string
}.

Record ReferenceDoc := {
  id : string;
  category : DocCategory;
  title : string;
  description : string;
  modelTarget : string;
  explanation : string;
  codeSnippet : string;
  launch : LaunchConfig
}.

Inductive LogStatus := ACCESS | COPY | INFO.

Inductive Layer := UI | DATABASE.

(** ** Arrays of catalog entries

    A JavaScript array is an object with an identity: [[...a]] and
    [a.filter(p)] allocate a new array, [a.sort(cmp)] reorders [a] itself and
    returns it. The store maps a location to the current contents of the
    array that lives there. *)

Module Arrays.

Abbreviation loc := nat (only parsing).
Abbreviation store := (list (list ReferenceDoc)) (only parsing).

(** The contents of the array at [a]. *)
Definition read (σ : store) (a : loc) : list ReferenceDoc := σ !!! a.

(** A new array holding [xs]; its location is the next free one. *)
Definition alloc (xs : list ReferenceDoc) (σ : store) : loc * store :=
  (length σ, σ ++ [xs]).

(** [a.filter(p)]. *)
Definition Array_filter (p : ReferenceDoc -> bool) (a : loc) (σ : store) : loc * store :=
  alloc (List.filter p (read σ a)) σ.

(** [[...a]]. *)
Definition spread (a : loc) (σ : store) : loc * store :=
  alloc (read σ a) σ.

(** [a.find(p)]. *)
Definition Array_find (p : ReferenceDoc -> bool) (a : loc) (σ : store)
  : option ReferenceDoc * store :=
  (List.find p (read σ a), σ).

(** [Array.prototype.sort] is a stable sort (required since ECMAScript
    2019): with [cmp x y > 0] meaning that [x] goes after [y], an element
    moves past exactly the elements it is strictly greater than, and never
    past one it compares equal to. *)
Fixpoint insert_sorted (cmp : ReferenceDoc -> ReferenceDoc -> Z)
  (x : ReferenceDoc) (l : list ReferenceDoc) : list ReferenceDoc :=
  match l with
  | [] => [x]
  | y :: l' => if (0 <? cmp x y)%Z then y :: insert_sorted cmp x l' else x :: y :: l'
  end.

Fixpoint sorted_by (cmp : ReferenceDoc -> ReferenceDoc -> Z)
  (l : list ReferenceDoc) : list ReferenceDoc :=
  match l with
  | [] => []
  | x :: l' => insert_sorted cmp x (sorted_by cmp l')
  end.

(** [a.sort(cmp)]: in place, and the result is [a] itself. *)
Definition Array_sort (cmp : ReferenceDoc -> ReferenceDoc -> Z) (a : loc) (σ : store)
  : loc * store :=
  (a, <[a := sorted_by cmp (read σ a)]> σ).

End Arrays.

(** ** services/docService.ts *)

Module DocService.
Import Arrays.

(** [docs.find(d => d.id === id)]; [None] is [undefined]. *)
Definition getDocById (docs : loc) (id' : string) (σ : store)
  : option ReferenceDoc * store :=
  Array_find (fun d => String.eqb (id d) id') docs σ.

End DocService.

(** ** App.tsx: the filter and sort logic *)

(** [String.prototype.localeCompare] depends on the host's locale data. It is
    taken as a collation: a comparison of strings, negative, zero or positive,
    that is total and transitive. *)
Class Collation := {
  localeCompare : string -> string -> Z;
  localeCompare_total : forall s t, (localeCompare s t <= 0 \/ localeCompare t s <= 0)%Z;
  localeCompare_trans : forall s t u,
    (localeCompare s t <= 0 -> localeCompare t u <= 0 -> localeCompare s u <= 0)%Z
}.

Module App.
Import Arrays JSString.

(** The callback of [KNOWLEDGE_BASE.filter(...)]. *)
Definition matches (searchTerm : string) (doc : ReferenceDoc) : bool :=
  let term := toLowerCase searchTerm in
  (includes (toLowerCase (title doc)) term ||
   includes (toLowerCase (DocCategory_value (category doc))) term ||
   includes (toLowerCase (id doc)) term)%bool.

Definition filteredDocs (KNOWLEDGE_BASE : loc) (searchTerm : string) (σ : store)
  : loc * store :=
  Array_filter (matches searchTerm) KNOWLEDGE_BASE σ.

(** The comparator [(a, b) => a.title.localeCompare(b.title)]. *)
Definition by_title `{Collation} (a b : ReferenceDoc) : Z :=
  localeCompare (title a) (title b).

Definition displayDocs `{Collation} (sortAlpha : bool) (filteredDocs : loc) (σ : store)
  : loc * store :=
  if sortAlpha then
    let '(copy, σ1) := spread filteredDocs σ in
    Array_sort by_title copy σ1
  else (filteredDocs, σ).

End App.

(** ** JavaScript values, the heap, and JSON

    A payload is [any] JavaScript value. The values modelled are data:
    primitives, arrays and plain objects (no functions, symbols or host
    objects, hence no [toJSON] hook). Primitives are immediate; arrays and
    plain objects live in a heap and are referred to by location, so that two
    references to one object see each other's writes and an object may
    contain a reference to itself. *)

Module JS.

(** Numbers: the integers, and the three kinds of number JSON has no exact
    text for ([NaN], the infinities, and the negative zero). *)
Inductive number := NaN | Infinity (negative : bool) | NegZero | Int (z : Z).

Abbreviation loc := nat (only parsing).

Inductive value :=
| VUndefined
| VNull
| VBool (b : bool)
| VNum (n : number)
| VStr (s : string)
| VRef (l : loc).

(** An array holds its elements; a plain object holds its own enumerable
    properties, in property order and with pairwise distinct keys. *)
Inductive object :=
| OArray (elements : list value)
| OObject (properties : list (string * value)).

Abbreviation heap := (list object) (only parsing).

Definition children (o : object) : list value :=
  match o with
  | OArray xs => xs
  | OObject ps => ps.*2
  end.

(** [ToBoolean]: what [payload ? ... : ...] tests. *)
Definition ToBoolean (v : value) : bool :=
  match v with
  | VUndefined | VNull => false
  | VBool b => b
  | VNum NaN | VNum NegZero => false
  | VNum (Infinity _) => true
  | VNum (Int z) => negb (z =? 0)%Z
  | VStr s => negb (String.eqb s "")
  | VRef _ => true
  end.

(** How a call completes: normally, or by throwing. [Stuck] is not a
    JavaScript outcome: it marks a reference to no object, or a traversal
    that ran out of its bound, and is shown below never to occur on a
    well-formed heap. *)
Inductive error := TypeError | SyntaxError.

Inductive completion (A : Type) :=
| Normal (a : A)
| Throw (e : error)
| Stuck.
Arguments Normal {A} a.
Arguments Throw {A} e.
Arguments Stuck {A}.

#[export] Instance completion_ret : MRet completion := fun A a => Normal a.
#[export] Instance completion_bind : MBind completion := fun A B k c =>
  match c with
  | Normal a => k a
  | Throw e => Throw e
  | Stuck => Stuck
  end.

(** A JSON text, by its syntax tree. [JSON.stringify] returns a string and
    [JSON.parse] reads one: the string is immutable, and the tree is what it
    denotes. *)
#[local] Unset Elimination Schemes.
Inductive json :=
| JNull
| JBool (b : bool)
| JNum (z : Z)
| JStr (s : string)
| JArr (items : list json)
| JObj (members : list (string * json)).
#[local] Set Elimination Schemes.

(** The elements of an array: [undefined] is written as [null]. *)
Fixpoint SerializeJSONArray (ser : value -> completion (option json))
  (xs : list value) : completion (list json) :=
  match xs with
  | [] => Normal []
  | x :: xs' =>
      o ← ser x;
      js ← SerializeJSONArray ser xs';
      Normal (default JNull o :: js)
  end.

(** The properties of an object: one whose value is [undefined] is left out. *)
Fixpoint SerializeJSONObject (ser : value -> completion (option json))
  (ps : list (string * value)) : completion (list (string * json)) :=
  match ps with
  | [] => Normal []
  | (k, x) :: ps' =>
      o ← ser x;
      ms ← SerializeJSONObject ser ps';
      Normal (match o with Some j => (k, j) :: ms | None => ms end)
  end.

(** [SerializeJSONProperty]. [stack] holds the objects being serialised, the
    innermost first; meeting one of them again is a circular structure and
    throws a [TypeError]. [None] is the result [undefined]. *)
Fixpoint SerializeJSONProperty (fuel : nat) (h : heap) (stack : list loc) (v : value)
  : completion (option json) :=
  match v with
  | VUndefined => Normal None
  | VNull => Normal (Some JNull)
  | VBool b => Normal (Some (JBool b))
  | VNum (Int z) => Normal (Some (JNum z))
  | VNum NegZero => Normal (Some (JNum 0))
  | VNum _ => Normal (Some JNull)
  | VStr s => Normal (Some (JStr s))
  | VRef l =>
      if bool_decide (l ∈ stack) then Throw TypeError
      else
        match h !! l, fuel with
        | None, _ => Stuck
        | Some _, O => Stuck
        | Some (OArray xs), S fuel' =>
            js ← SerializeJSONArray (SerializeJSONProperty fuel' h (l :: stack)) xs;
            Normal (Some (JArr js))
        | Some (OObject ps), S fuel' =>
            ms ← SerializeJSONObject (SerializeJSONProperty fuel' h (l :: stack)) ps;
            Normal (Some (JObj ms))
        end
  end.

(** [JSON.stringify(v)]. A chain of nested objects that never repeats one is
    no longer than the heap, which bounds the traversal. *)
Definition JSON_stringify (h : heap) (v : value) : completion (option json) :=
  SerializeJSONProperty (length h) h [] v.

(** The value a JSON text denotes, built from new arrays and objects: the
    elements and the members are revived from left to right, then the array
    or object that holds them is allocated. *)
Definition revive_items (revive : json -> heap -> value * heap)
  : list json -> heap -> list value * heap :=
  fix items (js : list json) (h : heap) : list value * heap :=
    match js with
    | [] => ([], h)
    | j :: js' =>
        let '(v, h1) := revive j h in
        let '(vs, h2) := items js' h1 in
        (v :: vs, h2)
    end.

Definition revive_members (revive : json -> heap -> value * heap)
  : list (string * json) -> heap -> list (string * value) * heap :=
  fix members (ms : list (string * json)) (h : heap) : list (string * value) * heap :=
    match ms with
    | [] => ([], h)
    | (k, j) :: ms' =>
        let '(v, h1) := revive j h in
        let '(ps, h2) := members ms' h1 in
        ((k, v) :: ps, h2)
    end.

Fixpoint revive (j : json) (h : heap) : value * heap :=
  match j with
  | JNull => (VNull, h)
  | JBool b => (VBool b, h)
  | JNum z => (VNum (Int z), h)
  | JStr s => (VStr s, h)
  | JArr js =>
      let '(vs, h1) := revive_items revive js h in
      (VRef (length h1), h1 ++ [OArray vs])
  | JObj ms =>
      let '(ps, h1) := revive_members revive ms h in
      (VRef (length h1), h1 ++ [OObject ps])
  end.

(** [JSON.parse(text)]. The text [undefined] (what [JSON.stringify] returns
    for [undefined]) is not JSON: a [SyntaxError]. *)
Definition JSON_parse (text : option json) (h : heap) : completion (value * heap) :=
  match text with
  | None => Throw SyntaxError
  | Some j => Normal (revive j h)
  end.

End JS.

(** ** services/logger.ts *)

Record TrafficLog := {
  traceId : string;
  timestamp : Z;
  layer : Layer;
  status : LogStatus;
  message : string;
  payload : JS.value
}.

(** What the platform answers during one call of [createLog]: the UUID that
    [crypto.randomUUID()] returns and the clock reading of [Date.now()]. *)
Record Host := {
  randomUUID : string;
  now : Z
}.

Module Logger.
Import JS JSString.

(** [createLog]. An argument that is not passed is [undefined]. *)
Definition createLog (host : Host) (layer : Layer) (status : LogStatus)
  (message : string) (payload : option value) (h : heap)
  : completion (TrafficLog * heap) :=
  let payload := default VUndefined payload in
  '(snapshot, h') ←
    (if ToBoolean payload
     then text ← JSON_stringify h payload; JSON_parse text h
     else Normal (VUndefined, h));
  Normal ({| traceId := slice0 8 (randomUUID host);
             timestamp := now host;
             layer := layer;
             status := status;
             message := message;
             payload := snapshot |}, h').

End Logger.

(** ** App.tsx: the log state *)

Module AppLog.
Import JS Logger.

(** The state the log operations act on: the heap, and the [logs] state of
    the component. *)
Record World := {
  heap_of : heap;
  logs : list TrafficLog
}.

(** [setLogs(prev => [...prev, createLog(layer, status, message, payload)])]. *)
Definition addLog (host : Host) (layer : Layer) (status : LogStatus)
  (message : string) (payload : option value) (w : World) : completion World :=
  '(log, h') ← createLog host layer status message payload (heap_of w);
  Normal {| heap_of := h'; logs := logs w ++ [log] |}.

(** [setLogs([])]. *)
Definition clearLogs (w : World) : World :=
  {| heap_of := heap_of w; logs := [] |}.

(** One call of [addLog], with the platform's answers during it. *)
Record Call := {
  call_host : Host;
  call_layer : Layer;
  call_status : LogStatus;
  call_message : string;
  call_payload : option value
}.

Definition record (c : Call) (w : World) : completion World :=
  addLog (call_host c) (call_layer c) (call_status c) (call_message c) (call_payload c) w.

(** A sequence of calls, one after the other; an exception ends it. *)
Fixpoint run (calls : list Call) (w : World) : completion World :=
  match calls with
  | [] => Normal w
  | c :: calls' => w' ← record c w; run calls' w'
  end.

End AppLog.

(** ** services/docService.ts: the display helper *)

Module Display.

(** The white space and line terminators [trim] removes, by their UTF-8
    encodings. One byte: tab, line feed, vertical tab, form feed, carriage
    return (09-0D) and space (20). *)
Definition whitespace1 (c : ascii) : bool :=
  let n := nat_of_ascii c in
  (((9 <=? n)%nat && (n <=? 13)%nat) || (n =? 32)%nat)%bool.

(** Two bytes: the no-break space U+00A0 (C2 A0). *)
Definition whitespace2 (c d : ascii) : bool :=
  ((nat_of_ascii c =? 194)%nat && (nat_of_ascii d =? 160)%nat)%bool.

(** Three bytes: U+1680 (E1 9A 80), U+2000 to U+200A (E2 80 80-8A), the line
    and paragraph separators U+2028 and U+2029 (E2 80 A8, E2 80 A9), U+202F
    (E2 80 AF), U+205F (E2 81 9F), U+3000 (E3 80 80) and the byte order
    mark U+FEFF (EF BB BF). *)
Definition whitespace3 (c d e : ascii) : bool :=
  let n := nat_of_ascii c in
  let m := nat_of_ascii d in
  let k := nat_of_ascii e in
  (((n =? 225)%nat && (m =? 154)%nat && (k =? 128)%nat)
   || ((n =? 226)%nat && (m =? 128)%nat &&
       (((128 <=? k)%nat && (k <=? 138)%nat)
        || (k =? 168)%nat || (k =? 169)%nat || (k =? 175)%nat))
   || ((n =? 226)%nat && (m =? 129)%nat && (k =? 159)%nat)
   || ((n =? 227)%nat && (m =? 128)%nat && (k =? 128)%nat)
   || ((n =? 239)%nat && (m =? 187)%nat && (k =? 191)%nat))%bool.

(** [s.trimStart()]: the white-space characters [s] begins with are dropped. *)
Fixpoint trimStart (s : string) : string :=
  match s with
  | EmptyString => EmptyString
  | String c s1 =>
      if whitespace1 c then trimStart s1
      else
        match s1 with
        | EmptyString => s
        | String d s2 =>
            if whitespace2 c d then trimStart s2
            else
              match s2 with
              | EmptyString => s
              | String e s3 => if whitespace3 c d e then trimStart s3 else s
              end
        end
  end.

(** [s] is white space from end to end. *)
Definition is_blank (s : string) : bool :=
  match trimStart s with
  | EmptyString => true
  | String _ _ => false
  end.

(** [s.trimEnd()]: [s] up to the point after which only white space follows. *)
Fixpoint trimEnd (s : string) : string :=
  match s with
  | EmptyString => EmptyString
  | String c s' => if is_blank s then EmptyString else String c (trimEnd s')
  end.

(** [s.trim()] does both. *)
Definition trim (s : string) : string := trimEnd (trimStart s).

(** [formatCodeForDisplay]. *)
Definition formatCodeForDisplay (doc : ReferenceDoc) : string :=
  trim (codeSnippet doc).

End Display.

(** ** App.tsx: the component, its handlers and the events that reach them *)

Module Component.
Import Arrays App JS Logger AppLog.

(** The string value of an execution pattern. *)
Definition ExecutionPattern_value (p : ExecutionPattern) : string :=
  match p with
  | SYNC => "SYNC"
  | ASYNC => "ASYNC"
  | STREAM => "STREAM"
  | LONG_POLLING => "LONG_POLLING"
  | SETUP_PATTERN => "SETUP"
  end%string.

(** The JSON text of a catalog entry, with the properties in the order in
    which the entries of [constants.ts] list them. *)
Definition LaunchConfig_json (l : LaunchConfig) : json :=
  JObj [("entry_point", JStr (entry_point l));
        ("required_params", JArr (map JStr (required_params l)));
        ("optional_params", JArr (map JStr (optional_params l)));
        ("execution_pattern", JStr (ExecutionPattern_value (execution_pattern l)));
        ("output_type", JStr (output_type l))]%string.

Definition ReferenceDoc_json (d : ReferenceDoc) : json :=
  JObj [("id", JStr (id d));
        ("category", JStr (DocCategory_value (category d)));
        ("title", JStr (title d));
        ("description", JStr (description d));
        ("modelTarget", JStr (modelTarget d));
        ("explanation", JStr (explanation d));
        ("codeSnippet", JStr (codeSnippet d));
        ("launch", LaunchConfig_json (launch d))]%string.

(** What a copy puts on the clipboard: the snippet as it is, or the JSON
    text of the entry (indented by two spaces). *)
Inductive CopyType := SNIPPET | RAW.

Definition CopyType_value (t : CopyType) : string :=
  match t with
  | SNIPPET => "SNIPPET"
  | RAW => "RAW"
  end%string.

Inductive ClipboardText :=
| PlainText (s : string)
| JSONText (j : json) (indent : nat).

(** What the page finds behind [navigator.clipboard]: nothing (the property
    is [undefined] outside a secure context), or the Clipboard API, whose
    [writeText] returns a promise that is fulfilled once the text is on the
    clipboard or is rejected, the clipboard left as it was. *)
Inductive ClipboardAPI :=
| Unavailable
| Available (fulfilled : bool).

(** The state of [App]: its four state variables, the world the log lives
    in, and the texts that have reached the clipboard, latest first. *)
Record State := {
  activeDoc : ReferenceDoc;
  searchTerm : string;
  sortAlpha : bool;
  world : World;
  clipboard : list ClipboardText
}.

(** The list the component shows: [displayDocs] of [filteredDocs]. Every
    render computes it anew from the catalog. *)
Definition displayed `{Collation} (KNOWLEDGE_BASE : list ReferenceDoc)
  (searchTerm : string) (sortAlpha : bool) : list ReferenceDoc :=
  let '(f, σ1) := filteredDocs 0 searchTerm [KNOWLEDGE_BASE] in
  let '(d, σ2) := displayDocs sortAlpha f σ1 in
  read σ2 d.

(** [handleDocChange]. *)
Definition handleDocChange (host : Host) (doc : ReferenceDoc) (st : State)
  : completion State :=
  w' ← addLog host UI ACCESS
         ("Read access: " ++ title doc ++ " [" ++ id doc ++ "]")%string None (world st);
  Normal {| activeDoc := doc; searchTerm := searchTerm st; sortAlpha := sortAlpha st;
            world := w'; clipboard := clipboard st |}.

(** [handleCopy]. The call [navigator.clipboard.writeText(content)] comes
    first: without the Clipboard API it throws a [TypeError] and [addLog] is
    not reached. With it, the handler does not wait for the promise: the
    record is logged whether the write is fulfilled or rejected. *)
Definition handleCopy (host : Host) (api : ClipboardAPI) (type : CopyType) (st : State)
  : completion State :=
  let content :=
    match type with
    | RAW => JSONText (ReferenceDoc_json (activeDoc st)) 2
    | SNIPPET => PlainText (codeSnippet (activeDoc st))
    end in
  match api with
  | Unavailable => Throw TypeError
  | Available fulfilled =>
      w' ← addLog host DATABASE COPY
             ("Content copied to clipboard: " ++ id (activeDoc st)
                ++ " [" ++ CopyType_value type ++ "]")%string None (world st);
      Normal {| activeDoc := activeDoc st; searchTerm := searchTerm st;
                sortAlpha := sortAlpha st; world := w';
                clipboard := if fulfilled then content :: clipboard st
                             else clipboard st |}
  end.

(** [toggleSort]. *)
Definition toggleSort (host : Host) (st : State) : completion State :=
  let newValue := negb (sortAlpha st) in
  w' ← addLog host UI ACCESS
         ("Sort order changed: " ++ (if newValue then "A-Z" else "Default"))%string
         None (world st);
  Normal {| activeDoc := activeDoc st; searchTerm := searchTerm st;
            sortAlpha := newValue; world := w'; clipboard := clipboard st |}.

(** The [onChange] of the search box, and [clearLogs] on the state. *)
Definition setSearchTerm (s : string) (st : State) : State :=
  {| activeDoc := activeDoc st; searchTerm := s; sortAlpha := sortAlpha st;
     world := world st; clipboard := clipboard st |}.

Definition onClear (st : State) : State :=
  {| activeDoc := activeDoc st; searchTerm := searchTerm st; sortAlpha := sortAlpha st;
     world := clearLogs (world st); clipboard := clipboard st |}.

(** The first render and the mount effect. [useState(KNOWLEDGE_BASE[0])] is
    [undefined] on an empty catalog and the render then throws on
    [activeDoc.id]; otherwise the effect allocates the object
    [{ entries: KNOWLEDGE_BASE.length }] and logs with it. *)
Definition mount (host : Host) (KNOWLEDGE_BASE : list ReferenceDoc) (h : heap)
  : completion State :=
  match KNOWLEDGE_BASE with
  | [] => Throw TypeError
  | first :: _ =>
      let literal := OObject [("entries"%string, VNum (Int (Z.of_nat (length KNOWLEDGE_BASE))))] in
      w' ← addLog host DATABASE INFO "Reference Database mounted."
             (Some (VRef (length h))) {| heap_of := h ++ [literal]; logs := [] |};
      Normal {| activeDoc := first; searchTerm := ""; sortAlpha := false;
                world := w'; clipboard := [] |}
  end.

(** What the user does: a click on the [i]-th button of the list (there is
    no such click when the list is shorter), on one of the two copy
    buttons (with what the page finds behind [navigator.clipboard] at that
    time), on the sort toggle or on Clear, or typing in the search box. *)
Inductive Event :=
| ClickDoc (i : nat)
| ClickCopy (t : CopyType) (api : ClipboardAPI)
| ClickSort
| TypeSearch (s : string)
| ClickClear.

Definition step `{Collation} (KNOWLEDGE_BASE : list ReferenceDoc)
  (host : Host) (e : Event) (st : State) : completion State :=
  match e with
  | ClickDoc i =>
      match displayed KNOWLEDGE_BASE (searchTerm st) (sortAlpha st) !! i with
      | Some doc => handleDocChange host doc st
      | None => Normal st
      end
  | ClickCopy t api => handleCopy host api t st
  | ClickSort => toggleSort host st
  | TypeSearch s => Normal (setSearchTerm s st)
  | ClickClear => Normal (onClear st)
  end.

(** A session: the events in order, each with the platform's answers. *)
Fixpoint session `{Collation} (KNOWLEDGE_BASE : list ReferenceDoc)
  (events : list (Host * Event)) (st : State) : completion State :=
  match events with
  | [] => Normal st
  | (host, e) :: events' =>
      st' ← step KNOWLEDGE_BASE host e st; session KNOWLEDGE_BASE events' st'
  end.

End Component.

(** * Properties of the catalog queries *)

(** Comparison of strings by code units, as a sample collation. *)
Definition codeUnitCompare (s t : string) : Z :=
  match String.compare s t with
  | Lt => (-1)%Z
  | Eq => 0%Z
  | Gt => 1%Z
  end.

Lemma codeUnitCompare_total (s t : string) :
  (codeUnitCompare s t <= 0 \/ codeUnitCompare t s <= 0)%Z.
Proof.
  unfold codeUnitCompare. rewrite (String.compare_antisym t s).
  destruct (String.compare s t); simpl; lia.
Qed.

Lemma codeUnitCompare_trans (s t u : string) :
  (codeUnitCompare s t <= 0 -> codeUnitCompare t u <= 0 -> codeUnitCompare s u <= 0)%Z.
Proof.
  unfold codeUnitCompare.
  destruct (String.compare s t) eqn:Hst; [| |lia].
  - apply String.compare_eq_iff in Hst as ->. tauto.
  - destruct (String.compare t u) eqn:Htu; [| |lia]; intros _ _.
    + apply String.compare_eq_iff in Htu as <-. rewrite Hst. lia.
    + apply String_as_OT.cmp_lt in Hst, Htu.
      pose proof (String_as_OT.lt_trans _ _ _ Hst Htu) as Hsu.
      apply String_as_OT.cmp_lt in Hsu.
      change (String.compare s u = Lt) in Hsu. rewrite Hsu. lia.
Qed.

#[export] Instance codeUnitCollation : Collation := {|
  localeCompare := codeUnitCompare;
  localeCompare_total := codeUnitCompare_total;
  localeCompare_trans := codeUnitCompare_trans
|}.

Module QueryProofs.
Import Arrays JSString App DocService.

(** What it means for [t] to occur in [s]. *)
Definition occurs_in (t s : string) : Prop :=
  exists pre post : string, s = (pre ++ t ++ post)%string.

(** Case-insensitive occurrence, the way the code decides it: both sides are
    lower-cased first. *)
Definition occurs_in_ci (t s : string) : Prop :=
  occurs_in (toLowerCase t) (toLowerCase s).

Lemma startsWith_spec (s t : string) :
  startsWith s t = true <-> exists post : string, s = (t ++ post)%string.
Proof.
  revert s. induction t as [|b t IH]; intros s; simpl.
  - split; [intros _; now exists s | reflexivity].
  - destruct s as [|a s]; simpl.
    + split; [discriminate | intros [post H]; discriminate].
    + rewrite andb_true_iff, IH, Ascii.eqb_eq. split.
      * intros [-> [post ->]]. now exists post.
      * intros [post H]. injection H as -> ->. split; [reflexivity | now exists post].
Qed.

Lemma includes_spec (s t : string) :
  includes s t = true <-> occurs_in t s.
Proof.
  unfold occurs_in. induction s as [|a s IH]; simpl.
  - rewrite orb_false_r, startsWith_spec. split.
    + intros [post H]. now exists EmptyString, post.
    + intros [[|c pre] [post H]]; simpl in H; [now exists post | discriminate].
  - rewrite orb_true_iff, startsWith_spec, IH. split.
    + intros [[post H] | [pre [post H]]].
      * now exists EmptyString, post.
      * exists (String a pre), post. simpl. now rewrite H.
    + intros [[|c pre] [post H]]; simpl in H.
      * left. now exists post.
      * right. injection H as -> ->. now exists pre, post.
Qed.

Lemma includes_empty (s : string) : includes s EmptyString = true.
Proof. destruct s; reflexivity. Qed.

(** A catalog entry with the given identifier, title and category; the other
    fields play no part in the queries. *)
Definition entry (i t : string) (c : DocCategory) : ReferenceDoc :=
  {| id := i; category := c; title := t;
     description := ""; modelTarget := "ALL"; explanation := ""; codeSnippet := "";
     launch := {| entry_point := "ai.models.generateContent";
                  required_params := ["model"%string];
                  optional_params := [];
                  execution_pattern := ASYNC;
                  output_type := "GenerateContentResponse" |} |}.

Lemma read_alloc (xs : list ReferenceDoc) (σ : store) :
  read (snd (alloc xs σ)) (fst (alloc xs σ)) = xs.
Proof.
  unfold read, alloc; simpl. apply list_lookup_total_correct.
  rewrite lookup_app_r by lia. now rewrite Nat.sub_diag.
Qed.

Lemma alloc_old (xs : list ReferenceDoc) (σ : store) (l : loc) (ys : list ReferenceDoc) :
  σ !! l = Some ys -> snd (alloc xs σ) !! l = Some ys.
Proof. intros Hl. unfold alloc; simpl. now apply lookup_app_l_Some. Qed.

Lemma alloc_fresh (xs : list ReferenceDoc) (σ : store) :
  σ !! fst (alloc xs σ) = None /\ snd (alloc xs σ) !! fst (alloc xs σ) = Some xs.
Proof.
  unfold alloc; simpl. split.
  - now apply lookup_ge_None_2.
  - rewrite lookup_app_r by lia. now rewrite Nat.sub_diag.
Qed.

Lemma matches_spec (t : string) (d : ReferenceDoc) :
  matches t d = true <->
  occurs_in_ci t (title d) \/
  occurs_in_ci t (DocCategory_value (category d)) \/
  occurs_in_ci t (id d).
Proof.
  unfold matches, occurs_in_ci.
  rewrite !orb_true_iff, !includes_spec. tauto.
Qed.

Lemma matches_empty (d : ReferenceDoc) : matches "" d = true.
Proof. unfold matches. simpl. now rewrite includes_empty. Qed.

Lemma filter_all {A} (p : A -> bool) (l : list A) :
  (forall x, p x = true) -> List.filter p l = l.
Proof.
  intros Hp. induction l as [|x l IH]; simpl; [reflexivity|].
  now rewrite Hp, IH.
Qed.

Lemma filter_sublist_of {A} (p : A -> bool) (l : list A) :
  sublist (List.filter p l) l.
Proof.
  induction l as [|x l IH]; simpl; [constructor|].
  destruct (p x); now constructor.
Qed.

(** *** Case-insensitive occurrence

    Stated without [toLowerCase]: two characters are the same letter when
    they are equal, or when one is a capital [A]-[Z] and the other is the
    small letter 32 code points after it. *)
Definition is_ascii_char (c : ascii) : bool := (nat_of_ascii c <? 128)%nat.

Fixpoint is_ascii (s : string) : bool :=
  match s with
  | EmptyString => true
  | String c s' => (is_ascii_char c && is_ascii s')%bool
  end.

Definition is_capital (c : ascii) : bool :=
  ((65 <=? nat_of_ascii c)%nat && (nat_of_ascii c <=? 90)%nat)%bool.

Definition same_letter (a b : ascii) : bool :=
  (Ascii.eqb a b
   || (is_capital a && (nat_of_ascii b =? nat_of_ascii a + 32)%nat)
   || (is_capital b && (nat_of_ascii a =? nat_of_ascii b + 32)%nat))%bool.

Fixpoint eq_ignore_case (s t : string) : bool :=
  match s, t with
  | EmptyString, EmptyString => true
  | String a s', String b t' => (same_letter a b && eq_ignore_case s' t')%bool
  | _, _ => false
  end.

(** Some stretch of [s] equals [t] up to the case of its letters. *)
Definition ci_occurs (t s : string) : Prop :=
  exists pre mid post : string,
    s = (pre ++ mid ++ post)%string /\ eq_ignore_case mid t = true.

(** [lower_ascii] on every character. *)
Fixpoint map_lower (s : string) : string :=
  match s with
  | EmptyString => EmptyString
  | String c s' => String (lower_ascii c) (map_lower s')
  end.

Definition all_ascii : list ascii := List.map ascii_of_nat (seq 0 256).

Lemma in_all_ascii (a : ascii) : In a all_ascii.
Proof.
  unfold all_ascii. rewrite <- (ascii_nat_embedding a).
  apply in_map, in_seq. pose proof (nat_ascii_bounded a). lia.
Qed.

Lemma same_letter_spec (a b : ascii) :
  same_letter a b = Ascii.eqb (lower_ascii a) (lower_ascii b).
Proof.
  assert (Hall : forallb (fun a => forallb (fun b =>
            Bool.eqb (same_letter a b) (Ascii.eqb (lower_ascii a) (lower_ascii b)))
            all_ascii) all_ascii = true) by (vm_compute; reflexivity).
  rewrite forallb_forall in Hall. specialize (Hall a (in_all_ascii a)).
  rewrite forallb_forall in Hall. specialize (Hall b (in_all_ascii b)).
  now apply Bool.eqb_prop.
Qed.

Lemma eq_ignore_case_spec (s t : string) :
  eq_ignore_case s t = true <-> map_lower s = map_lower t.
Proof.
  revert t. induction s as [|a s IH]; intros [|b t]; simpl.
  - tauto.
  - split; discriminate.
  - split; discriminate.
  - rewrite andb_true_iff, same_letter_spec, Ascii.eqb_eq, IH. split.
    + intros [-> ->]. reflexivity.
    + intros [= -> ->]. split; reflexivity.
Qed.

Lemma map_lower_app (a b : string) :
  map_lower (a ++ b) = (map_lower a ++ map_lower b)%string.
Proof.
  induction a as [|c a IH]; [reflexivity|].
  change (String (lower_ascii c) (map_lower (a ++ b)) =
          String (lower_ascii c) (map_lower a ++ map_lower b)%string).
  now rewrite IH.
Qed.

Lemma map_lower_app_inv (s p q : string) :
  map_lower s = (p ++ q)%string ->
  exists s1 s2 : string, s = (s1 ++ s2)%string /\ map_lower s1 = p /\ map_lower s2 = q.
Proof.
  revert s. induction p as [|c p IH]; intros s Hs.
  - exists EmptyString, s. split; [reflexivity|]. split; [reflexivity | exact Hs].
  - destruct s as [|a s]; [discriminate Hs|].
    change (String (lower_ascii a) (map_lower s) = String c (p ++ q)%string) in Hs.
    injection Hs as Ha Hs. destruct (IH s Hs) as [s1 [s2 [-> [H1 H2]]]].
    exists (String a s1), s2. split; [reflexivity|]. split; [|exact H2].
    simpl. now rewrite Ha, H1.
Qed.

Lemma ascii_not_sigma (c d : ascii) :
  is_ascii_char c = true -> is_capital_sigma c d = false /\ is_small_sigma c d = false.
Proof.
  unfold is_ascii_char, is_capital_sigma, is_small_sigma. intros Hc.
  apply Nat.ltb_lt in Hc.
  assert (H1 : (nat_of_ascii c =? 206)%nat = false) by (apply Nat.eqb_neq; lia).
  assert (H2 : (nat_of_ascii c =? 207)%nat = false) by (apply Nat.eqb_neq; lia).
  now rewrite H1, H2.
Qed.

Lemma lower_from_ascii (before : bool) (s : string) :
  is_ascii s = true -> lower_from before s = map_lower s.
Proof.
  revert before. induction s as [|c s IH]; intros before Hs; [reflexivity|].
  simpl in Hs. apply andb_true_iff in Hs as [Hc Hs].
  destruct s as [|d s']; [reflexivity|].
  destruct (ascii_not_sigma c d Hc) as [H1 H2].
  change (lower_from before (String c (String d s'))) with
    (if is_capital_sigma c d then
       String (ascii_of_nat 207)
         (String (ascii_of_nat
                    (if (before && negb (followed_by_cased s'))%bool then 130 else 131))
            (lower_from true s'))
     else if is_small_sigma c d then String c (String d (lower_from true s'))
     else String (lower_ascii c)
            (lower_from (if is_case_ignorable c then before else is_cased c)
               (String d s'))).
  rewrite H1, H2, (IH _ Hs). reflexivity.
Qed.

(** On ASCII strings [toLowerCase] changes [A]-[Z] only, each on its own. *)
Lemma toLowerCase_ascii (s : string) :
  is_ascii s = true -> toLowerCase s = map_lower s.
Proof. apply lower_from_ascii. Qed.

Lemma includes_ci (s t : string) :
  is_ascii s = true -> is_ascii t = true ->
  includes (toLowerCase s) (toLowerCase t) = true <-> ci_occurs t s.
Proof.
  intros Hs Ht. rewrite includes_spec, (toLowerCase_ascii s Hs), (toLowerCase_ascii t Ht).
  unfold occurs_in, ci_occurs. split.
  - intros [pre [post H]].
    apply map_lower_app_inv in H as [s1 [s2 [-> [_ H]]]].
    apply map_lower_app_inv in H as [s3 [s4 [-> [H _]]]].
    exists s1, s3, s4. split; [reflexivity|]. now apply eq_ignore_case_spec.
  - intros [pre [mid [post [-> He]]]]. apply eq_ignore_case_spec in He.
    exists (map_lower pre), (map_lower post).
    now rewrite !map_lower_app, He.
Qed.

Lemma DocCategory_value_ascii (c : DocCategory) : is_ascii (DocCategory_value c) = true.
Proof. destruct c; reflexivity. Qed.

Lemma filteredDocs_contents (σ : store) (KNOWLEDGE_BASE : loc) (t : string) :
  let '(r, σ') := filteredDocs KNOWLEDGE_BASE t σ in
  read σ' r = List.filter (matches t) (read σ KNOWLEDGE_BASE).
Proof.
  unfold filteredDocs, Array_filter.
  pose proof (read_alloc (List.filter (matches t) (read σ KNOWLEDGE_BASE)) σ) as Hr.
  now destruct (alloc _ σ) as [r σ'].
Qed.

(** C5 (amended). For every search term [t] made of ASCII characters and
    every entry whose title and identifier are made of ASCII characters, the
    entry is returned by [filter(t)] exactly when it is in the catalog and
    some stretch of its title, of its category label or of its identifier
    equals [t] up to the case of the letters [A]-[Z]: every entry returned
    has such a stretch, and every entry left out has none in the three
    fields. *)
Theorem filteredDocs_ascii (σ : store) (KNOWLEDGE_BASE : loc) (t : string)
  (d : ReferenceDoc) :
  is_ascii t = true -> is_ascii (title d) = true -> is_ascii (id d) = true ->
  let '(r, σ') := filteredDocs KNOWLEDGE_BASE t σ in
  d ∈ read σ' r <->
  d ∈ read σ KNOWLEDGE_BASE /\
  (ci_occurs t (title d) \/
   ci_occurs t (DocCategory_value (category d)) \/
   ci_occurs t (id d)).
Proof.
  intros Ht Htitle Hid.
  pose proof (filteredDocs_contents σ KNOWLEDGE_BASE t) as Hr.
  destruct (filteredDocs KNOWLEDGE_BASE t σ) as [r σ']. rewrite Hr.
  rewrite list_elem_of_In, filter_In, <- list_elem_of_In.
  unfold matches. rewrite !orb_true_iff.
  rewrite (includes_ci _ _ Htitle Ht), (includes_ci _ _ (DocCategory_value_ascii _) Ht),
    (includes_ci _ _ Hid Ht).
  tauto.
Qed.

(** C5 at the entry titled [Chat Session] and the term [CHAT]. *)
Lemma filteredDocs_ascii_example :
  let d := entry "core-chat" "Chat Session" CORE in
  let σ := [[d]] in
  d ∈ read (snd (filteredDocs 0 "CHAT" σ)) (fst (filteredDocs 0 "CHAT" σ)) <->
  d ∈ read σ 0 /\
  (ci_occurs "CHAT" (title d) \/
   ci_occurs "CHAT" (DocCategory_value (category d)) \/
   ci_occurs "CHAT" (id d)).
Proof.
  intros d σ.
  pose proof (filteredDocs_ascii σ 0 "CHAT" d eq_refl eq_refl eq_refl) as H.
  destruct (filteredDocs 0 "CHAT" σ) as [r σ']. exact H.
Defined.

(** C5, counterexample. Outside the ASCII range the comparison is that of
    [toLowerCase], which looks at the neighbours of a capital sigma: the
    title [AΣ] lower-cases to [aς] and the term [Σ] to [σ], so the entry is
    left out although the term is, as written, a substring of its title. *)
Lemma filteredDocs_final_sigma :
  let d := entry "sigma" "AΣ" CORE in
  let σ := [[d]] in
  toLowerCase (title d) = "aς"%string /\
  toLowerCase "Σ" = "σ"%string /\
  read (snd (filteredDocs 0 "Σ" σ)) (fst (filteredDocs 0 "Σ" σ)) = [] /\
  d ∈ read σ 0 /\
  occurs_in "Σ" (title d).
Proof.
  intros d σ. split; [reflexivity|]. split; [reflexivity|].
  split; [reflexivity|]. split; [apply list_elem_of_here|].
  now exists "A"%string, ""%string.
Qed.

(** C6. With the empty string as term, [filter] returns the full catalog in
    its original order; and for every term the result is the catalog with
    the entries that do not match removed, so the matches appear in the
    catalog's original relative order. *)
Theorem filteredDocs_order (σ : store) (KNOWLEDGE_BASE : loc) :
  (let '(r, σ') := filteredDocs KNOWLEDGE_BASE "" σ in
   read σ' r = read σ KNOWLEDGE_BASE) /\
  (forall t : string,
     let '(r, σ') := filteredDocs KNOWLEDGE_BASE t σ in
     read σ' r = List.filter (matches t) (read σ KNOWLEDGE_BASE) /\
     sublist (read σ' r) (read σ KNOWLEDGE_BASE)).
Proof.
  assert (Hgen : forall t : string,
     let '(r, σ') := filteredDocs KNOWLEDGE_BASE t σ in
     read σ' r = List.filter (matches t) (read σ KNOWLEDGE_BASE)).
  { intros t. unfold filteredDocs, Array_filter.
    pose proof (read_alloc (List.filter (matches t) (read σ KNOWLEDGE_BASE)) σ) as Hr.
    now destruct (alloc _ σ) as [r σ']. }
  split.
  - specialize (Hgen ""%string). destruct (filteredDocs _ _ σ) as [r σ'].
    rewrite Hgen. apply filter_all, matches_empty.
  - intros t. specialize (Hgen t). destruct (filteredDocs _ _ σ) as [r σ'].
    split; [exact Hgen|]. rewrite Hgen. apply filter_sublist_of.
Qed.

(** C8. [lookup(id)] changes nothing; when it returns an entry, that entry
    is in the catalog and its identifier equals [id]; it returns an entry
    whenever one with that identifier exists (the first one), and no entry,
    [undefined], exactly when none matches. With identifiers unique across
    the catalog it returns the entry that has the identifier. *)
Theorem getDocById_spec (σ : store) (docs : loc) (i : string) :
  let '(r, σ') := getDocById docs i σ in
  σ' = σ /\
  (forall d, r = Some d -> d ∈ read σ docs /\ id d = i) /\
  ((exists d, d ∈ read σ docs /\ id d = i) -> exists d, r = Some d) /\
  (r = None <-> forall d, d ∈ read σ docs -> id d <> i) /\
  (NoDup (map id (read σ docs)) ->
   forall d, d ∈ read σ docs -> id d = i -> r = Some d).
Proof.
  unfold getDocById, Array_find.
  set (p := fun d : ReferenceDoc => String.eqb (id d) i).
  set (l := read σ docs).
  assert (Hsome : forall d, find p l = Some d -> d ∈ l /\ id d = i).
  { intros d Hd. apply find_some in Hd as [Hin Hp].
    split; [now apply list_elem_of_In | now apply String.eqb_eq]. }
  assert (Hnone : find p l = None <-> forall d, d ∈ l -> id d <> i).
  { split.
    - intros Hn d Hin Heq. apply list_elem_of_In in Hin.
      pose proof (find_none p l Hn d Hin) as Hp. unfold p in Hp.
      apply String.eqb_neq in Hp. contradiction.
    - intros Hall. destruct (find p l) as [d|] eqn:Hf; [|reflexivity].
      destruct (Hsome d eq_refl) as [Hin Heq]. now destruct (Hall d Hin). }
  split; [reflexivity|]. split; [exact Hsome|]. split; [|split; [exact Hnone|]].
  - intros [d [Hin Heq]]. destruct (find p l) as [d'|] eqn:Hf; [now exists d'|].
    destruct (proj1 Hnone eq_refl d Hin Heq).
  - intros Hnd d Hin Heq. destruct (find p l) as [d'|] eqn:Hf.
    + destruct (Hsome d' eq_refl) as [Hin' Heq']. f_equal.
      assert (Hinj : forall x y, x ∈ l -> y ∈ l -> id x = id y -> x = y).
      { clear -Hnd. induction l as [|z l IH]; intros x y Hx Hy Hxy.
        - inversion Hx.
        - simpl in Hnd. apply NoDup_cons in Hnd as [Hz Hnd].
          apply elem_of_cons in Hx as [->|Hx]; apply elem_of_cons in Hy as [->|Hy].
          + reflexivity.
          + destruct Hz. rewrite Hxy. now apply list_elem_of_fmap_2.
          + destruct Hz. rewrite <- Hxy. now apply list_elem_of_fmap_2.
          + now apply IH. }
      apply Hinj; congruence.
    + destruct (proj1 Hnone eq_refl d Hin Heq).
Qed.

End QueryProofs.

Module SortProofs.
Import Arrays JSString App QueryProofs.

Section with_collation.
Context `{Collation}.

(** [a] does not come after [b] by title. *)
Definition title_le (a b : ReferenceDoc) : Prop := (by_title a b <= 0)%Z.

(** The entries of a list that carry the title [t], in the order of the list. *)
Definition with_title (t : string) (l : list ReferenceDoc) : list ReferenceDoc :=
  List.filter (fun d => String.eqb (title d) t) l.

Lemma insert_sorted_perm (x : ReferenceDoc) (l : list ReferenceDoc) :
  Permutation (insert_sorted by_title x l) (x :: l).
Proof.
  induction l as [|y l IH]; simpl; [reflexivity|].
  destruct (0 <? by_title x y)%Z; [|reflexivity].
  rewrite IH. apply perm_swap.
Qed.

Lemma sorted_by_perm (l : list ReferenceDoc) :
  Permutation (sorted_by by_title l) l.
Proof.
  induction l as [|x l IH]; simpl; [reflexivity|].
  rewrite insert_sorted_perm. now constructor.
Qed.

Lemma insert_sorted_sorted (x : ReferenceDoc) (l : list ReferenceDoc) :
  StronglySorted title_le l -> StronglySorted title_le (insert_sorted by_title x l).
Proof.
  induction l as [|y l IH]; simpl; intros Hs.
  - repeat constructor.
  - apply StronglySorted_inv in Hs as [Hs Hy].
    destruct (0 <? by_title x y)%Z eqn:Hxy.
    + apply Z.ltb_lt in Hxy. constructor; [now apply IH|].
      apply (Permutation_Forall (Permutation_sym (insert_sorted_perm x l))).
      constructor; [|exact Hy].
      unfold title_le, by_title in *.
      destruct (localeCompare_total (title x) (title y)); [lia | assumption].
    + apply Z.ltb_ge in Hxy. constructor; [now constructor|].
      constructor; [exact Hxy|].
      eapply Forall_impl; [exact Hy|]. intros z Hz.
      unfold title_le, by_title in *. now apply (localeCompare_trans _ (title y)).
Qed.

Lemma sorted_by_sorted (l : list ReferenceDoc) :
  StronglySorted title_le (sorted_by by_title l).
Proof.
  induction l as [|x l IH]; simpl; [constructor | now apply insert_sorted_sorted].
Qed.

Lemma insert_sorted_with_title (t : string) (x : ReferenceDoc) (l : list ReferenceDoc) :
  with_title t (insert_sorted by_title x l) = with_title t (x :: l).
Proof.
  unfold with_title. induction l as [|y l IH]; [reflexivity|].
  cbn [insert_sorted]. destruct (0 <? by_title x y)%Z eqn:Hxy; [|reflexivity].
  apply Z.ltb_lt in Hxy. cbn [List.filter] in *. rewrite IH.
  destruct (String.eqb (title x) t) eqn:Hx, (String.eqb (title y) t) eqn:Hy;
    try reflexivity.
  apply String.eqb_eq in Hx, Hy. unfold by_title in Hxy. rewrite Hx, Hy in Hxy.
  destruct (localeCompare_total t t); lia.
Qed.

Lemma sorted_by_with_title (t : string) (l : list ReferenceDoc) :
  with_title t (sorted_by by_title l) = with_title t l.
Proof.
  induction l as [|x l IH]; [reflexivity|].
  cbn [sorted_by]. rewrite insert_sorted_with_title.
  unfold with_title in *. cbn [List.filter]. now rewrite IH.
Qed.

(** [a] and [b] compare equal by title. *)
Definition same_rank (a b : ReferenceDoc) : bool :=
  ((by_title a b <=? 0)%Z && (by_title b a <=? 0)%Z)%bool.

Lemma same_rank_spec (a b : ReferenceDoc) :
  same_rank a b = true <-> title_le a b /\ title_le b a.
Proof. unfold same_rank, title_le. rewrite andb_true_iff, !Z.leb_le. tauto. Qed.

Lemma title_le_refl (a : ReferenceDoc) : title_le a a.
Proof. unfold title_le, by_title. destruct (localeCompare_total (title a) (title a)); lia. Qed.

Lemma title_le_trans (a b c : ReferenceDoc) :
  title_le a b -> title_le b c -> title_le a c.
Proof. unfold title_le, by_title. apply localeCompare_trans. Qed.

(** The sort is stable for every rank, not only among identical titles. *)
Lemma insert_sorted_stable (z x : ReferenceDoc) (l : list ReferenceDoc) :
  List.filter (same_rank z) (insert_sorted by_title x l) =
  List.filter (same_rank z) (x :: l).
Proof.
  induction l as [|y l IH]; [reflexivity|].
  cbn [insert_sorted]. destruct (0 <? by_title x y)%Z eqn:Hxy; [|reflexivity].
  apply Z.ltb_lt in Hxy. cbn [List.filter] in *. rewrite IH.
  destruct (same_rank z x) eqn:Hx, (same_rank z y) eqn:Hy; try reflexivity.
  apply same_rank_spec in Hx as [Hzx Hxz], Hy as [Hzy Hyz].
  pose proof (title_le_trans _ _ _ Hxz Hzy) as Hle. unfold title_le in Hle. lia.
Qed.

Lemma sorted_by_stable (z : ReferenceDoc) (l : list ReferenceDoc) :
  List.filter (same_rank z) (sorted_by by_title l) = List.filter (same_rank z) l.
Proof.
  induction l as [|x l IH]; [reflexivity|].
  cbn [sorted_by]. rewrite insert_sorted_stable. cbn [List.filter]. now rewrite IH.
Qed.

(** Two sorted arrangements of the same entries that list the entries of
    every rank in the same order are equal: whichever stable algorithm the
    engine runs, the result is [sorted_by]. *)
Lemma stable_sort_unique (l1 l2 : list ReferenceDoc) :
  Permutation l1 l2 ->
  StronglySorted title_le l1 -> StronglySorted title_le l2 ->
  (forall z, List.filter (same_rank z) l1 = List.filter (same_rank z) l2) ->
  l1 = l2.
Proof.
  revert l2. induction l1 as [|a l1 IH]; intros l2 Hperm Hs1 Hs2 Hstable.
  - now apply Permutation_nil in Hperm.
  - destruct l2 as [|b l2]; [now apply Permutation_sym, Permutation_nil in Hperm|].
    apply StronglySorted_inv in Hs1 as [Hs1 Ha], Hs2 as [Hs2 Hb].
    assert (Hab : title_le a b).
    { assert (Hin : In b (a :: l1))
        by (apply (Permutation_in b (Permutation_sym Hperm)); now left).
      destruct Hin as [->|Hin]; [apply title_le_refl|].
      rewrite List.Forall_forall in Ha. now apply Ha. }
    assert (Hba : title_le b a).
    { assert (Hin : In a (b :: l2)) by (apply (Permutation_in a Hperm); now left).
      destruct Hin as [->|Hin]; [apply title_le_refl|].
      rewrite List.Forall_forall in Hb. now apply Hb. }
    assert (a = b) as <-.
    { pose proof (Hstable a) as Hst. cbn [List.filter] in Hst.
      rewrite (proj2 (same_rank_spec a a)) in Hst by (split; apply title_le_refl).
      rewrite (proj2 (same_rank_spec a b)) in Hst by now split.
      congruence. }
    f_equal. apply IH; [now apply Permutation_cons_inv in Hperm | exact Hs1 | exact Hs2 |].
    intros z. specialize (Hstable z). cbn [List.filter] in Hstable.
    destruct (same_rank z a); congruence.
Qed.

Lemma sorted_by_unique (l out : list ReferenceDoc) :
  Permutation out l -> StronglySorted title_le out ->
  (forall z, List.filter (same_rank z) out = List.filter (same_rank z) l) ->
  out = sorted_by by_title l.
Proof.
  intros Hperm Hsorted Hstable. apply stable_sort_unique.
  - rewrite Hperm. symmetry. apply sorted_by_perm.
  - exact Hsorted.
  - apply sorted_by_sorted.
  - intros z. now rewrite Hstable, sorted_by_stable.
Qed.

Lemma displayDocs_alpha_read (σ : store) (a : loc) :
  displayDocs true a σ = (length σ, σ ++ [sorted_by by_title (read σ a)]).
Proof.
  unfold displayDocs, spread, alloc, Array_sort, read.
  f_equal. rewrite list_lookup_total_middle by reflexivity.
  replace (length σ) with (length σ + 0) at 1 by lia.
  now rewrite insert_app_r.
Qed.

(** C4 (amended). In ALPHABETICAL mode [sort] returns the entries of its
    input ordered by title under [localeCompare], a total comparison; entries
    with identical titles keep the relative order they have in the input (the
    sort is stable): identifiers play no part. *)
Theorem displayDocs_alphabetical (σ : store) (a : loc) :
  let '(r, σ') := displayDocs true a σ in
  Permutation (read σ' r) (read σ a) /\
  (forall x y, title_le x y \/ title_le y x) /\
  StronglySorted title_le (read σ' r) /\
  (forall t, with_title t (read σ' r) = with_title t (read σ a)).
Proof.
  rewrite displayDocs_alpha_read.
  pose proof (read_alloc (sorted_by by_title (read σ a)) σ) as Hr.
  unfold alloc in Hr; simpl in Hr. rewrite Hr.
  split; [apply sorted_by_perm|]. split; [|split].
  - intros x y. apply localeCompare_total.
  - apply sorted_by_sorted.
  - intros t. apply sorted_by_with_title.
Qed.

(** C9 (amended). [sort] never changes an array that exists when it is
    called, its input included. In ORIGINAL mode it returns its input array
    itself and allocates nothing; in ALPHABETICAL mode it returns an array
    that did not exist before. *)
Theorem displayDocs_frame (sortAlpha : bool) (σ : store) (a : loc) :
  let '(r, σ') := displayDocs sortAlpha a σ in
  (forall l xs, σ !! l = Some xs -> σ' !! l = Some xs) /\
  (sortAlpha = false -> r = a /\ σ' = σ) /\
  (sortAlpha = true -> σ !! r = None /\ is_Some (σ' !! r)).
Proof.
  destruct sortAlpha.
  - rewrite displayDocs_alpha_read. split; [|split].
    + intros l xs Hl. now apply lookup_app_l_Some.
    + discriminate.
    + intros _. split; [now apply lookup_ge_None_2|].
      rewrite lookup_app_r by lia. rewrite Nat.sub_diag. now eexists.
  - simpl. split; [tauto|]. split; [tauto | discriminate].
Qed.

End with_collation.

(** The theorem on ALPHABETICAL mode at a concrete catalog, under the
    code-unit collation. *)
Lemma displayDocs_alphabetical_example :
  let σ := [[entry "b" "zeta" CORE; entry "a" "Alpha" SETUP]] in
  let '(r, σ') := @displayDocs codeUnitCollation true 0 σ in
  Permutation (read σ' r) (read σ 0) /\
  (forall x y, title_le x y \/ title_le y x) /\
  StronglySorted title_le (read σ' r) /\
  (forall t, with_title t (read σ' r) = with_title t (read σ 0)).
Proof.
  exact (@displayDocs_alphabetical codeUnitCollation
           [[entry "b" "zeta" CORE; entry "a" "Alpha" SETUP]] 0).
Defined.

(** C4, counterexample. Two entries with the same title and different
    identifiers come out in either order, according to the order in which
    they came in: their identifiers do not determine their relative order. *)
Lemma displayDocs_ties_follow_input :
  let A := entry "a" "Alpha" SETUP in
  let B := entry "b" "Alpha" CORE in
  title A = title B /\ id A <> id B /\
  (let '(r, σ') := @displayDocs codeUnitCollation true 0 [[A; B]] in
   read σ' r = [A; B]) /\
  (let '(r, σ') := @displayDocs codeUnitCollation true 0 [[B; A]] in
   read σ' r = [B; A]).
Proof.
  cbv zeta. split; [reflexivity|]. split; [discriminate|].
  split; reflexivity.
Qed.

(** C9, counterexample. In ORIGINAL mode the sequence returned is not a new
    one: it is the input array, which existed before the call. *)
Lemma displayDocs_original_is_input :
  let σ := [[entry "a" "Alpha" SETUP; entry "b" "zeta" CORE]] in
  let '(r, σ') := @displayDocs codeUnitCollation false 0 σ in
  r = 0 /\ σ' = σ /\
  σ !! r = Some [entry "a" "Alpha" SETUP; entry "b" "zeta" CORE].
Proof. cbv zeta. split; [reflexivity|]. split; reflexivity. Qed.

(** The fifteen entries of [constants.ts], by the three fields the queries
    read; the remaining fields are those of [entry]. *)
Definition KNOWLEDGE_BASE_index : list ReferenceDoc :=
  [entry "client-initialization" "Client Initialization" SETUP;
   entry "system-instruction" "System Instructions" SETUP;
   entry "text-generation" "Text Generation" CORE;
   entry "chat-session" "Chat Session" CORE;
   entry "streaming-content" "Streaming Responses" CORE;
   entry "multimodal-input" "Multimodal Input (Vision)" MULTIMODAL;
   entry "image-generation" "Image Generation" MULTIMODAL;
   entry "audio-input" "Audio Analysis" MULTIMODAL;
   entry "text-to-speech" "Text-to-Speech" MULTIMODAL;
   entry "video-generation" "Video Generation (Veo)" MULTIMODAL;
   entry "json-schema" "JSON Structured Output (Array)" SCHEMAS;
   entry "json-object-schema" "JSON Structured Output (Object)" SCHEMAS;
   entry "function-calling" "Function Calling" ADVANCED;
   entry "search-grounding" "Google Search Grounding" ADVANCED;
   entry "thinking-budget" "Thinking Budget" ADVANCED].

Example search_json :
  let '(r, σ) := filteredDocs 0 "Json" [KNOWLEDGE_BASE_index] in
  map id (read σ r) = ["json-schema"; "json-object-schema"]%string.
Proof. reflexivity. Qed.

Example search_core_sorted :
  let '(f, σ1) := filteredDocs 0 "core" [KNOWLEDGE_BASE_index] in
  let '(d, σ2) := @displayDocs codeUnitCollation true f σ1 in
  map id (read σ1 f) = ["text-generation"; "chat-session"; "streaming-content"]%string /\
  map title (read σ2 d) = ["Chat Session"; "Streaming Responses"; "Text Generation"]%string /\
  read σ2 f = read σ1 f.
Proof. repeat split. Qed.

Example lookup_by_id :
  let σ := [KNOWLEDGE_BASE_index] in
  fst (DocService.getDocById 0 "chat-session" σ) = Some (entry "chat-session" "Chat Session" CORE) /\
  fst (DocService.getDocById 0 "no-such-entry" σ) = None.
Proof. split; reflexivity. Qed.

End SortProofs.

(** * Properties of [JSON.stringify] *)

Module StringifyProofs.
Import JS.

(** A heap is well formed when every reference stored in it is to an object
    of the heap, as in a running program. *)
Definition wf_value (h : heap) (v : value) : Prop :=
  match v with
  | VRef l => l < length h
  | _ => True
  end.

Definition wf_heap (h : heap) : Prop :=
  forall l o, h !! l = Some o -> Forall (wf_value h) (children o).

(** [l] has a property or an element that refers to [l']. *)
Definition points_to (h : heap) (l l' : loc) : Prop :=
  exists o, h !! l = Some o /\ VRef l' ∈ children o.

(** The objects that can be reached from a value. *)
Definition reaches (h : heap) (v : value) (l : loc) : Prop :=
  exists l0, v = VRef l0 /\ rtc (points_to h) l0 l.

(** A value is circular when an object that contains itself, directly or
    through other objects, can be reached from it. *)
Definition circular (h : heap) (v : value) : Prop :=
  exists l, reaches h v l /\ tc (points_to h) l l.

(** Completing normally or with a [TypeError]: the two ways
    [JSON.stringify] ends. *)
Definition returns_or_TypeError {A} (c : completion A) : Prop :=
  match c with
  | Normal _ | Throw TypeError => True
  | Throw SyntaxError | Stuck => False
  end.

Lemma bind_Normal {A B} (c : completion A) (k : A -> completion B) (b : B) :
  c ≫= k = Normal b <-> exists a, c = Normal a /\ k a = Normal b.
Proof.
  destruct c as [a| |]; simpl; split.
  - intros Hk. now exists a.
  - now intros [a' [[= ->] Hk]].
  - discriminate.
  - now intros [a' [? _]].
  - discriminate.
  - now intros [a' [? _]].
Qed.

Lemma SerializeJSONArray_Normal ser xs js :
  SerializeJSONArray ser xs = Normal js ->
  Forall (fun x => exists o, ser x = Normal o) xs.
Proof.
  revert js. induction xs as [|x xs IH]; intros js Hjs; [constructor|].
  simpl in Hjs. apply bind_Normal in Hjs as [o [Ho Hjs]].
  apply bind_Normal in Hjs as [js' [Hjs' _]].
  constructor; [now exists o | now apply (IH js')].
Qed.

Lemma SerializeJSONObject_Normal ser ps ms :
  SerializeJSONObject ser ps = Normal ms ->
  Forall (fun x => exists o, ser x = Normal o) ps.*2.
Proof.
  revert ms. induction ps as [|[k x] ps IH]; intros ms Hms; [constructor|].
  simpl in Hms. apply bind_Normal in Hms as [o [Ho Hms]].
  apply bind_Normal in Hms as [ms' [Hms' _]].
  constructor; [now exists o | now apply (IH ms')].
Qed.

Lemma SerializeJSONArray_ends ser xs :
  Forall (fun x => returns_or_TypeError (ser x)) xs ->
  returns_or_TypeError (SerializeJSONArray ser xs).
Proof.
  induction 1 as [|x xs Hx _ IH]; simpl; [exact I|].
  destruct (ser x) as [o|[]|]; simpl in *; try done.
  destruct (SerializeJSONArray ser xs) as [js|[]|]; simpl in *; done.
Qed.

Lemma SerializeJSONObject_ends ser ps :
  Forall (fun x => returns_or_TypeError (ser x)) ps.*2 ->
  returns_or_TypeError (SerializeJSONObject ser ps).
Proof.
  induction ps as [|[k x] ps IH]; simpl; intros Hall; [exact I|].
  apply Forall_cons in Hall as [Hx Hall]. simpl in Hx.
  destruct (ser x) as [o|[]|]; simpl in *; try done.
  specialize (IH Hall).
  destruct (SerializeJSONObject ser ps) as [ms|[]|]; simpl in *; done.
Qed.

(** What a normal completion on a reference says about the object. *)
Lemma SerializeJSONProperty_ref_Normal fuel h stack l o :
  SerializeJSONProperty fuel h stack (VRef l) = Normal o ->
  (l ∉ stack) /\
  exists fuel' obj, fuel = S fuel' /\ h !! l = Some obj /\
    Forall (fun x => exists o', SerializeJSONProperty fuel' h (l :: stack) x = Normal o')
           (children obj).
Proof.
  destruct fuel as [|fuel']; simpl;
    (case_bool_decide as Hin; [discriminate|]);
    (destruct (h !! l) as [obj|] eqn:Hl; [|discriminate]);
    [destruct obj; discriminate|].
  intros Hser. split; [exact Hin|]. exists fuel', obj.
  split; [reflexivity|]. split; [reflexivity|].
  destruct obj as [xs|ps]; apply bind_Normal in Hser as [r [Hr _]]; simpl.
  - now apply (SerializeJSONArray_Normal _ _ r).
  - now apply (SerializeJSONObject_Normal _ _ r).
Qed.

(** A value that [JSON.stringify] serialises reaches no object of the stack
    and no object that contains itself. *)
Lemma SerializeJSONProperty_Normal_acyclic fuel h :
  forall stack v o,
    SerializeJSONProperty fuel h stack v = Normal o ->
    forall l, reaches h v l -> (l ∉ stack) /\ ~ tc (points_to h) l l.
Proof.
  induction fuel as [|fuel IH]; intros stack v o Hser l [l0 [-> Hreach]];
    apply SerializeJSONProperty_ref_Normal in Hser
      as [Hin [fuel' [obj [Hfuel [Hobj Hall]]]]]; [discriminate|].
  injection Hfuel as <-.
  assert (Hchild : forall l1 l2, points_to h l0 l1 -> rtc (points_to h) l1 l2 ->
            (l2 ∉ l0 :: stack) /\ ~ tc (points_to h) l2 l2).
  { intros l1 l2 [obj' [Hobj' Hl1]] Hl2.
    rewrite Hobj in Hobj'. injection Hobj' as <-.
    rewrite Forall_forall in Hall. destruct (Hall _ Hl1) as [o' Ho'].
    apply (IH _ _ _ Ho'). now exists l1. }
  apply rtc_inv in Hreach as [<- | [l1 [Hstep Hrest]]].
  - split; [exact Hin|]. intros Hcyc.
    assert (Hself : l0 ∉ l0 :: stack).
    { inversion Hcyc as [? ? Hstep | ? l1 ? Hstep Hrest]; subst.
      + exact (proj1 (Hchild l0 l0 Hstep (rtc_refl _ _))).
      + exact (proj1 (Hchild l1 l0 Hstep (tc_rtc _ _ Hrest))). }
    apply Hself. now left.
  - destruct (Hchild l1 l Hstep Hrest) as [Hnin Hacyc].
    split; [|exact Hacyc]. intros Hl. apply Hnin. now right.
Qed.

(** Distinct locations of a heap are no more than the heap has objects. *)
Lemma distinct_locations_bound (n : nat) (stack : list loc) :
  NoDup stack -> Forall (fun l => l < n) stack -> length stack <= n.
Proof.
  intros Hnd Hall.
  cut (length stack <= length (seq 0 n)); [now rewrite length_seq|].
  apply submseteq_length, NoDup_submseteq; [exact Hnd|].
  intros l Hl. rewrite Forall_forall in Hall.
  apply elem_of_seq. specialize (Hall l Hl). lia.
Qed.

(** On a well-formed heap the traversal neither meets a missing object nor
    runs out of its bound: it returns or throws a [TypeError]. *)
Lemma SerializeJSONProperty_ends h :
  wf_heap h ->
  forall fuel stack v,
    wf_value h v ->
    NoDup stack -> Forall (fun l => l < length h) stack ->
    length h <= fuel + length stack ->
    returns_or_TypeError (SerializeJSONProperty fuel h stack v).
Proof.
  intros Hwf. induction fuel as [|fuel IH]; intros stack v Hv Hnd Hbound Hfuel;
    (destruct v as [| |b|[]|s|l]; simpl; try exact I);
    (case_bool_decide as Hin; [exact I|]);
    simpl in Hv; destruct (lookup_lt_is_Some_2 h l Hv) as [obj Hobj]; rewrite Hobj.
  - assert (length (l :: stack) <= length h) as Hle.
    { apply distinct_locations_bound; [now constructor | now constructor]. }
    simpl in Hle. lia.
  - assert (Hall : Forall (fun x => returns_or_TypeError
               (SerializeJSONProperty fuel h (l :: stack) x)) (children obj)).
    { eapply Forall_impl; [exact (Hwf l obj Hobj)|]. intros x Hx.
      apply IH; [exact Hx | now constructor | now constructor | simpl; lia]. }
    destruct obj as [xs|ps]; simpl in Hall.
    + apply SerializeJSONArray_ends in Hall.
      destruct (SerializeJSONArray _ xs) as [js|[]|]; simpl in *; done.
    + apply SerializeJSONObject_ends in Hall.
      destruct (SerializeJSONObject _ ps) as [ms|[]|]; simpl in *; done.
Qed.

(** [JSON.stringify] on a well-formed heap: it returns, or it throws a
    [TypeError]; and on a circular value it throws. *)
Lemma JSON_stringify_ends h v :
  wf_heap h -> wf_value h v -> returns_or_TypeError (JSON_stringify h v).
Proof.
  intros Hwf Hv. apply SerializeJSONProperty_ends;
    [exact Hwf | exact Hv | constructor | constructor | simpl; lia].
Qed.

Lemma JSON_stringify_circular h v :
  wf_heap h -> wf_value h v -> circular h v ->
  JSON_stringify h v = Throw TypeError.
Proof.
  intros Hwf Hv [l [Hreach Hcyc]].
  pose proof (JSON_stringify_ends h v Hwf Hv) as Hends.
  destruct (JSON_stringify h v) as [o|[]|] eqn:Hs; simpl in Hends; try done.
  destruct (SerializeJSONProperty_Normal_acyclic _ _ _ _ _ Hs l Hreach) as [_ Hacyc].
  now destruct Hacyc.
Qed.

End StringifyProofs.

(** * Properties of the snapshot [JSON.parse(JSON.stringify(payload))] *)

Module SnapshotProofs.
Import JS StringifyProofs.

(** Induction on JSON texts, with the hypothesis for every item of an array
    and every member of an object. *)
Definition json_induction (P : json -> Prop)
  (Hnull : P JNull) (Hbool : forall b, P (JBool b)) (Hnum : forall z, P (JNum z))
  (Hstr : forall s, P (JStr s))
  (Harr : forall js, Forall P js -> P (JArr js))
  (Hobj : forall ms, Forall (fun m => P m.2) ms -> P (JObj ms))
  : forall j, P j :=
  fix F (j : json) : P j :=
    match j with
    | JNull => Hnull
    | JBool b => Hbool b
    | JNum z => Hnum z
    | JStr s => Hstr s
    | JArr js =>
        Harr js ((fix G (js : list json) : Forall P js :=
                    match js with
                    | [] => List.Forall_nil P
                    | j :: js' => @List.Forall_cons _ P j js' (F j) (G js')
                    end) js)
    | JObj ms =>
        Hobj ms ((fix G (ms : list (string * json)) : Forall (fun m => P m.2) ms :=
                    match ms with
                    | [] => List.Forall_nil _
                    | m :: ms' =>
                        @List.Forall_cons _ (fun m => P m.2) m ms' (F m.2) (G ms')
                    end) ms)
    end.

Fixpoint json_size (j : json) : nat :=
  match j with
  | JArr js => S (list_sum (List.map json_size js))
  | JObj ms => S (list_sum (List.map (fun m => json_size m.2) ms))
  | _ => 1
  end.

(** [represents n h j v]: in the heap [h] the value [v] is the data that the
    JSON text [j] denotes, and every array and object it is made of lives at
    a location from [n] on. With [n = 0] this only says that [v] is plain
    JSON data with content [j]. *)
#[local] Unset Elimination Schemes.
Inductive represents (n : nat) (h : heap) : json -> value -> Prop :=
| represents_null : represents n h JNull VNull
| represents_bool b : represents n h (JBool b) (VBool b)
| represents_num z : represents n h (JNum z) (VNum (Int z))
| represents_str s : represents n h (JStr s) (VStr s)
| represents_arr js l vs :
    n <= l -> h !! l = Some (OArray vs) ->
    Forall2 (represents n h) js vs ->
    represents n h (JArr js) (VRef l)
| represents_obj ms l ps :
    n <= l -> h !! l = Some (OObject ps) ->
    Forall2 (fun m p => m.1 = p.1 /\ represents n h m.2 p.2) ms ps ->
    represents n h (JObj ms) (VRef l).
#[local] Set Elimination Schemes.

(** The content of a stored payload: absent, or the data of a JSON text. *)
Definition snapshot_content (n : nat) (h : heap) (v : value) (c : option json) : Prop :=
  match c with
  | None => v = VUndefined
  | Some j => represents n h j v
  end.

(** [represents] only looks at the objects from [n] on: it survives any
    change of the heap that keeps them, and a lowering of [n]. *)
Lemma represents_preserved n n' h h' j :
  n' <= n ->
  (forall l o, n <= l -> h !! l = Some o -> h' !! l = Some o) ->
  forall v, represents n h j v -> represents n' h' j v.
Proof.
  intros Hn Hkeep. induction j as [| | | |js IH|ms IH] using json_induction;
    intros v Hrep; inversion Hrep as [| | | |? l vs Hl Hobj Hall|? l ps Hl Hobj Hall];
    subst; try constructor.
  - apply (represents_arr _ _ _ _ vs); [lia | now apply Hkeep |].
    clear Hobj Hrep. induction Hall as [|j v js vs Hjv _ IHall]; [constructor|].
    apply Forall_cons in IH as [IHj IH]. constructor; [now apply IHj | now apply IHall].
  - apply (represents_obj _ _ _ _ ps); [lia | now apply Hkeep |].
    clear Hobj Hrep. induction Hall as [|m p ms ps [Hk Hmp] _ IHall]; [constructor|].
    apply Forall_cons in IH as [IHm IH].
    constructor; [split; [exact Hk | now apply IHm] | now apply IHall].
Qed.

Lemma represents_extend n h ext j v :
  represents n h j v -> represents n (h ++ ext) j v.
Proof.
  intros Hrep. apply (represents_preserved n n h); [lia | | exact Hrep].
  intros l o _ Hl. now apply lookup_app_l_Some.
Qed.

(** A value is the data of at most one JSON text. *)
Lemma represents_functional n n' h j :
  forall j' v, represents n h j v -> represents n' h j' v -> j = j'.
Proof.
  induction j as [| | | |js IH|ms IH] using json_induction;
    intros j' v Hrep Hrep';
    inversion Hrep as [| | | |? l vs Hl Hobj Hall|? l ps Hl Hobj Hall]; subst;
    inversion Hrep' as [| | | |js' ? vs' Hl' Hobj' Hall'|ms' ? ps' Hl' Hobj' Hall'];
    subst; try reflexivity; try congruence;
    rewrite Hobj in Hobj'; injection Hobj' as <-; f_equal.
  - clear Hobj Hrep Hrep'. revert js' Hall'.
    induction Hall as [|j v js vs Hjv _ IHall]; intros js' Hall';
      inversion Hall' as [|j' ? js'' ? Hjv' Hrest]; subst; [reflexivity|].
    apply Forall_cons in IH as [IHj IH].
    f_equal; [now apply (IHj j' v) | now apply IHall].
  - clear Hobj Hrep Hrep'. revert ms' Hall'.
    induction Hall as [|m p ms ps [Hk Hmp] _ IHall]; intros ms' Hall';
      inversion Hall' as [|m' ? ms'' ? [Hk' Hmp'] Hrest]; subst; [reflexivity|].
    apply Forall_cons in IH as [IHm IH].
    f_equal; [|now apply IHall].
    destruct m as [k j], m' as [k' j']; simpl in *.
    f_equal; [congruence | now apply (IHm j' p.2)].
Qed.

(** What [revive] builds: the old heap is a prefix of the new one, and the
    value returned is the data of the text, made of new objects only. *)
Definition revive_ok (j : json) : Prop :=
  forall h, exists ext,
    (revive j h).2 = h ++ ext /\
    represents (length h) (revive j h).2 j (revive j h).1.

Lemma revive_items_ok js :
  Forall revive_ok js ->
  forall h, exists ext,
    (revive_items revive js h).2 = h ++ ext /\
    Forall2 (represents (length h) (revive_items revive js h).2)
            js (revive_items revive js h).1.
Proof.
  induction 1 as [|j js Hj _ IH]; intros h; simpl.
  - exists []. split; [now rewrite app_nil_r | constructor].
  - destruct (Hj h) as [e1 [He1 Hrep1]].
    destruct (revive j h) as [v h1]; simpl in *.
    destruct (IH h1) as [e2 [He2 Hrep2]].
    destruct (revive_items revive js h1) as [vs h2]; simpl in *.
    subst h1 h2. exists (e1 ++ e2). split; [now rewrite app_assoc|].
    constructor.
    + now apply represents_extend.
    + eapply Forall2_impl; [exact Hrep2|]. intros j' v'.
      apply represents_preserved; [rewrite length_app; lia | tauto].
Qed.

Lemma revive_members_ok ms :
  Forall (fun m => revive_ok m.2) ms ->
  forall h, exists ext,
    (revive_members revive ms h).2 = h ++ ext /\
    Forall2 (fun m p => m.1 = p.1 /\
               represents (length h) (revive_members revive ms h).2 m.2 p.2)
            ms (revive_members revive ms h).1.
Proof.
  induction 1 as [|[k j] ms Hj _ IH]; intros h; simpl.
  - exists []. split; [now rewrite app_nil_r | constructor].
  - simpl in Hj. destruct (Hj h) as [e1 [He1 Hrep1]].
    destruct (revive j h) as [v h1]; simpl in *.
    destruct (IH h1) as [e2 [He2 Hrep2]].
    destruct (revive_members revive ms h1) as [ps h2]; simpl in *.
    subst h1 h2. exists (e1 ++ e2). split; [now rewrite app_assoc|].
    constructor.
    + split; [reflexivity | now apply represents_extend].
    + eapply Forall2_impl; [exact Hrep2|]. intros m p [Hk Hmp].
      split; [exact Hk|]. revert Hmp.
      apply represents_preserved; [rewrite length_app; lia | tauto].
Qed.

Lemma revive_spec j : revive_ok j.
Proof.
  induction j as [| | | |js IH|ms IH] using json_induction; intros h;
    try (exists []; simpl; split; [now rewrite app_nil_r | constructor]).
  - destruct (revive_items_ok js IH h) as [e [He Hall]]. simpl.
    destruct (revive_items revive js h) as [vs h1]; simpl in *. subst h1.
    exists (e ++ [OArray vs]). split; [now rewrite app_assoc|].
    apply (represents_arr _ _ _ _ vs).
    + rewrite length_app. lia.
    + rewrite lookup_app_r by lia. now rewrite Nat.sub_diag.
    + eapply Forall2_impl; [exact Hall|]. intros j v. apply represents_extend.
  - destruct (revive_members_ok ms IH h) as [e [He Hall]]. simpl.
    destruct (revive_members revive ms h) as [ps h1]; simpl in *. subst h1.
    exists (e ++ [OObject ps]). split; [now rewrite app_assoc|].
    apply (represents_obj _ _ _ _ ps).
    + rewrite length_app. lia.
    + rewrite lookup_app_r by lia. now rewrite Nat.sub_diag.
    + eapply Forall2_impl; [exact Hall|]. intros m p [Hk Hmp].
      split; [exact Hk | now apply represents_extend].
Qed.

Lemma json_size_item js j : j ∈ js -> json_size j < json_size (JArr js).
Proof.
  simpl. induction 1 as [j js|j j' js _ IH]; simpl; lia.
Qed.

Lemma json_size_member ms (m : string * json) :
  m ∈ ms -> json_size m.2 < json_size (JObj ms).
Proof.
  simpl. induction 1 as [m ms|m m' ms _ IH]; simpl; lia.
Qed.

Lemma Forall2_with_Forall {A B} (P : A -> Prop) (R R' : A -> B -> Prop) l k :
  Forall P l -> Forall2 R l k ->
  (forall a b, P a -> R a b -> R' a b) ->
  Forall2 R' l k.
Proof.
  intros HP HR Himp. induction HR as [|a b l k Hab _ IH]; [constructor|].
  apply Forall_cons in HP as [Ha HP]. constructor; [now apply Himp | now apply IH].
Qed.

Lemma SerializeJSONArray_all ser js vs :
  Forall2 (fun j x => ser x = Normal (Some j)) js vs ->
  SerializeJSONArray ser vs = Normal js.
Proof.
  induction 1 as [|j x js vs Hx _ IH]; simpl; [reflexivity|].
  rewrite Hx; simpl. now rewrite IH.
Qed.

Lemma SerializeJSONObject_all ser (ms : list (string * json)) ps :
  Forall2 (fun m p => m.1 = p.1 /\ ser p.2 = Normal (Some m.2)) ms ps ->
  SerializeJSONObject ser ps = Normal ms.
Proof.
  induction 1 as [|[k j] [k' x] ms ps [Hk Hx] _ IH]; simpl in *; [reflexivity|].
  rewrite Hx; simpl. rewrite IH; simpl. now subst.
Qed.

(** Plain JSON data is serialised to its text. The objects of the stack are
    the ancestors of [v]: each holds strictly more data than [v] does, so
    none is met again, and the bound is not reached. *)
Lemma SerializeJSONProperty_represents h j :
  forall fuel stack v,
    represents 0 h j v ->
    (forall l' j', l' ∈ stack -> represents 0 h j' (VRef l') ->
       json_size j < json_size j') ->
    NoDup stack -> Forall (fun l => l < length h) stack ->
    length h <= fuel + length stack ->
    SerializeJSONProperty fuel h stack v = Normal (Some j).
Proof.
  induction j as [| | | |js IH|ms IH] using json_induction;
    intros fuel stack v Hrep Hanc Hnd Hbound Hfuel;
    inversion Hrep as [| | | |? l vs Hl Hobj Hall|? l ps Hl Hobj Hall]; subst;
    try (destruct fuel; reflexivity).
  - assert (Hnin : l ∉ stack).
    { intros Hin. specialize (Hanc l _ Hin Hrep). lia. }
    pose proof (lookup_lt_Some _ _ _ Hobj) as Hlt.
    assert (length (l :: stack) <= length h) as Hle
      by (apply distinct_locations_bound; now constructor).
    simpl in Hle. destruct fuel as [|fuel]; [lia|].
    simpl. rewrite bool_decide_false by exact Hnin. rewrite Hobj.
    rewrite (SerializeJSONArray_all _ js vs); [reflexivity|].
    assert (Hboth : Forall (fun j => json_size j < json_size (JArr js) /\
              forall fuel stack v, represents 0 h j v ->
                (forall l' j', l' ∈ stack -> represents 0 h j' (VRef l') ->
                   json_size j < json_size j') ->
                NoDup stack -> Forall (fun l => l < length h) stack ->
                length h <= fuel + length stack ->
                SerializeJSONProperty fuel h stack v = Normal (Some j)) js).
    { rewrite Forall_forall in IH. apply Forall_forall. intros j Hj.
      split; [now apply json_size_item | now apply IH]. }
    apply (Forall2_with_Forall _ _ _ _ _ Hboth Hall).
    intros j x [Hsize IHj] Hjx. apply IHj; [exact Hjx | | | |].
    + intros l' j' Hl' Hrep'. apply elem_of_cons in Hl' as [->|Hl'].
      * now rewrite <- (represents_functional _ _ _ _ _ _ Hrep Hrep').
      * specialize (Hanc l' j' Hl' Hrep'). lia.
    + now constructor.
    + now constructor.
    + simpl. lia.
  - assert (Hnin : l ∉ stack).
    { intros Hin. specialize (Hanc l _ Hin Hrep). lia. }
    pose proof (lookup_lt_Some _ _ _ Hobj) as Hlt.
    assert (length (l :: stack) <= length h) as Hle
      by (apply distinct_locations_bound; now constructor).
    simpl in Hle. destruct fuel as [|fuel]; [lia|].
    simpl. rewrite bool_decide_false by exact Hnin. rewrite Hobj.
    rewrite (SerializeJSONObject_all _ ms ps); [reflexivity|].
    assert (Hboth : Forall (fun m : string * json =>
              json_size m.2 < json_size (JObj ms) /\
              forall fuel stack v, represents 0 h m.2 v ->
                (forall l' j', l' ∈ stack -> represents 0 h j' (VRef l') ->
                   json_size m.2 < json_size j') ->
                NoDup stack -> Forall (fun l => l < length h) stack ->
                length h <= fuel + length stack ->
                SerializeJSONProperty fuel h stack v = Normal (Some m.2)) ms).
    { rewrite Forall_forall in IH. apply Forall_forall. intros m Hm.
      split; [now apply json_size_member | now apply IH]. }
    apply (Forall2_with_Forall _ _ _ _ _ Hboth Hall).
    intros m p [Hsize IHm] [Hk Hmp]. split; [exact Hk|].
    apply IHm; [exact Hmp | | | |].
    + intros l' j' Hl' Hrep'. apply elem_of_cons in Hl' as [->|Hl'].
      * now rewrite <- (represents_functional _ _ _ _ _ _ Hrep Hrep').
      * specialize (Hanc l' j' Hl' Hrep'). lia.
    + now constructor.
    + now constructor.
    + simpl. lia.
Qed.

(** [JSON.stringify] of plain JSON data is its text. *)
Lemma JSON_stringify_represents h j v :
  represents 0 h j v -> JSON_stringify h v = Normal (Some j).
Proof.
  intros Hrep. apply SerializeJSONProperty_represents;
    [exact Hrep | | constructor | constructor | simpl; lia].
  intros l' j' Hl'. inversion Hl'.
Qed.

End SnapshotProofs.

(** * Properties of the logger and of the log state *)

Module LogProofs.
Import JS JSString Logger AppLog StringifyProofs SnapshotProofs.


(** The record [createLog] builds around a snapshot. *)
Definition log_entry (host : Host) (L : Layer) (S : LogStatus) (m : string)
  (snapshot : value) : TrafficLog :=
  {| traceId := slice0 8 (randomUUID host); timestamp := now host;
     layer := L; status := S; message := m; payload := snapshot |}.

(** What a normal completion of [createLog] says. *)
Lemma createLog_Normal host L S m arg h r h' :
  createLog host L S m arg h = Normal (r, h') ->
  r = log_entry host L S m (payload r) /\
  ((ToBoolean (default VUndefined arg) = false /\ payload r = VUndefined /\ h' = h) \/
   (ToBoolean (default VUndefined arg) = true /\
    exists j, JSON_stringify h (default VUndefined arg) = Normal (Some j) /\
              revive j h = (payload r, h'))).
Proof.
  unfold createLog. destruct (ToBoolean (default VUndefined arg)) eqn:Htruthy.
  - destruct (JSON_stringify h (default VUndefined arg)) as [[j|]| |] eqn:Hs;
      simpl; try discriminate.
    destruct (revive j h) as [v h1] eqn:Hrev. intros [= <- <-]. simpl.
    split; [reflexivity|]. right. split; [reflexivity|]. now exists j.
  - simpl. intros [= <- <-]. simpl. split; [reflexivity|]. left. tauto.
Qed.

Lemma createLog_falsy host L S m arg h :
  ToBoolean (default VUndefined arg) = false ->
  createLog host L S m arg h = Normal (log_entry host L S m VUndefined, h).
Proof. intros Hfalsy. unfold createLog. now rewrite Hfalsy. Qed.

Lemma createLog_json host L S m P h j :
  ToBoolean P = true -> represents 0 h j P ->
  createLog host L S m (Some P) h =
  Normal (log_entry host L S m (revive j h).1, (revive j h).2).
Proof.
  intros Htruthy Hrep. unfold createLog; simpl. rewrite Htruthy.
  rewrite (JSON_stringify_represents h j P Hrep); simpl.
  now destruct (revive j h).
Qed.


(** A payload argument that [createLog] is sure to capture: none, a falsy
    value, or plain JSON data. *)
Definition capturable (h : heap) (arg : option value) : Prop :=
  arg = None \/
  exists P, arg = Some P /\ (ToBoolean P = false \/ exists j, represents 0 h j P).

Lemma createLog_returns host L S m arg h :
  capturable h arg -> exists r h', createLog host L S m arg h = Normal (r, h').
Proof.
  intros [-> | [P [-> [Hfalsy | [j Hrep]]]]].
  - eexists _, _. now apply createLog_falsy.
  - eexists _, _. now apply createLog_falsy.
  - destruct (ToBoolean P) eqn:Htruthy.
    + eexists _, _. now apply (createLog_json _ _ _ _ _ _ j).
    + eexists _, _. now apply createLog_falsy.
Qed.

(** [createLog] only allocates: the heap it leaves extends the one it found. *)
Lemma createLog_extends host L S m arg h r h' :
  createLog host L S m arg h = Normal (r, h') -> exists ext, h' = h ++ ext.
Proof.
  intros Hlog.
  apply createLog_Normal in Hlog as [_ [[_ [_ ->]] | [_ [j [_ Hrev]]]]].
  - exists []. now rewrite app_nil_r.
  - destruct (revive_spec j h) as [ext [Hext _]]. rewrite Hrev in Hext. now exists ext.
Qed.

(** C2 (amended). [record] returns when no payload is given, when the
    payload is falsy, and when it is plain JSON data. Whenever it returns,
    it has changed no object that existed before the call; the stored
    payload is either absent or made of new objects only, so that no later
    write to the objects that existed before the call (those of [P] among
    them) nor any later allocation changes its content; it is absent when
    no payload argument is given and when [P] is falsy; and when [P] is
    truthy plain JSON data it has the content of [P]: a deep copy. *)
Theorem createLog_snapshot (host : Host) (L : Layer) (S : LogStatus) (m : string)
  (arg : option value) (h : heap) :
  (capturable h arg -> exists r h', createLog host L S m arg h = Normal (r, h')) /\
  (forall r h', createLog host L S m arg h = Normal (r, h') ->
     (exists ext, h' = h ++ ext) /\
     exists c,
       snapshot_content (length h) h' (payload r) c /\
       (forall h'',
          (forall l o, length h <= l -> h' !! l = Some o -> h'' !! l = Some o) ->
          snapshot_content (length h) h'' (payload r) c) /\
       (arg = None -> c = None) /\
       (forall P, arg = Some P -> ToBoolean P = false -> c = None) /\
       (forall P j, arg = Some P -> ToBoolean P = true -> represents 0 h j P ->
          c = Some j)).
Proof.
  split; [apply createLog_returns|].
  intros r h' Hlog. split; [exact (createLog_extends _ _ _ _ _ _ _ _ Hlog)|].
  apply createLog_Normal in Hlog as [_ [[Hfalsy [Hp ->]] | [Htruthy [j [Hs Hrev]]]]].
  - exists None. simpl. split; [exact Hp|]. split; [now intros|].
    split; [reflexivity|]. split; [reflexivity|].
    intros P j -> HP. simpl in Hfalsy. congruence.
  - destruct (revive_spec j h) as [ext [Hext Hrep]].
    rewrite Hrev in Hext, Hrep. simpl in Hext, Hrep.
    exists (Some j). simpl. split; [exact Hrep|]. split; [|split; [|split]].
    + intros h'' Hkeep. revert Hrep.
      apply represents_preserved; [lia | exact Hkeep].
    + intros ->. discriminate Htruthy.
    + intros P ->. simpl in Htruthy. congruence.
    + intros P j' -> _ Hrep'. simpl in Hs.
      rewrite (JSON_stringify_represents h j' P Hrep') in Hs. congruence.
Qed.

(** The snapshot theorem at the payload the application itself logs, an
    object with one numeric property. *)
Lemma createLog_snapshot_example :
  let h := [OObject [("entries"%string, VNum (Int 15))]] in
  exists r h',
    createLog {| randomUUID := "3f2b8c1e-7a54-4d09-9b6e-0c1d2e3f4a5b"; now := 1700000000000 |}
      DATABASE INFO "Reference Database mounted." (Some (VRef 0)) h = Normal (r, h') /\
    represents (length h) h' (JObj [("entries"%string, JNum 15)]) (payload r).
Proof.
  cbv zeta.
  set (host := {| randomUUID := "3f2b8c1e-7a54-4d09-9b6e-0c1d2e3f4a5b";
                  now := 1700000000000 |}).
  set (h := [OObject [("entries"%string, VNum (Int 15))]]).
  assert (Hrep : represents 0 h (JObj [("entries"%string, JNum 15)]) (VRef 0)).
  { apply (represents_obj _ _ _ _ [("entries"%string, VNum (Int 15))]);
      [lia | reflexivity |].
    constructor; [|constructor]. split; [reflexivity | constructor]. }
  destruct (createLog_snapshot host DATABASE INFO "Reference Database mounted."
              (Some (VRef 0)) h) as [Hreturns Hright].
  destruct Hreturns as [r [h' Hlog]].
  { right. exists (VRef 0). split; [reflexivity|]. right. eexists. exact Hrep. }
  exists r, h'. split; [exact Hlog|].
  destruct (Hright r h' Hlog) as [_ [c [Hc [_ [_ [_ Hcopy]]]]]].
  now rewrite (Hcopy (VRef 0) _ eq_refl eq_refl Hrep) in Hc.
Defined.

(** C2, counterexample. The payload [0] is provided and is plain JSON data,
    but the stored payload is [undefined], which is the data of no JSON
    text: not a copy of [0]. *)
Lemma createLog_zero_not_copied :
  let host := {| randomUUID := "3f2b8c1e-7a54-4d09-9b6e-0c1d2e3f4a5b"; now := 1700000000000 |} in
  createLog host DATABASE INFO "count" (Some (VNum (Int 0))) [] =
    Normal (log_entry host DATABASE INFO "count" VUndefined, []) /\
  represents 0 [] (JNum 0) (VNum (Int 0)) /\
  ~ (exists j, represents 0 [] j VUndefined).
Proof.
  cbv zeta. split; [reflexivity|]. split; [constructor|].
  intros [j Hrep]. inversion Hrep.
Qed.

(** C10. A payload that is provided but falsy ([0], [-0], [NaN], the empty
    string, [false], [null], [undefined]) is stored as absent: the call
    completes exactly as the call without a payload argument does, with the
    same record, whose payload is [undefined], and the same heap. *)
Theorem createLog_falsy_payload (host : Host) (L : Layer) (S : LogStatus)
  (m : string) (v : value) (h : heap) :
  ToBoolean v = false ->
  createLog host L S m (Some v) h = createLog host L S m None h /\
  createLog host L S m (Some v) h = Normal (log_entry host L S m VUndefined, h).
Proof.
  intros Hfalsy.
  rewrite (createLog_falsy host L S m (Some v) h Hfalsy).
  now rewrite (createLog_falsy host L S m None h eq_refl).
Qed.

(** The falsy values are these and no others. *)
Lemma ToBoolean_false_iff (v : value) :
  ToBoolean v = false <->
  v = VUndefined \/ v = VNull \/ v = VBool false \/ v = VNum (Int 0) \/
  v = VNum NegZero \/ v = VNum NaN \/ v = VStr "".
Proof.
  destruct v as [| |[]|[| | |z]|s|l]; simpl; try (split; [auto 10 | done]);
    try (split; [done | intros H; decompose [or] H; discriminate]).
  - rewrite negb_false_iff, Z.eqb_eq. split.
    + intros ->. auto 10.
    + intros H. decompose [or] H; try discriminate. congruence.
  - rewrite negb_false_iff, String.eqb_eq. split.
    + intros ->. auto 10.
    + intros H. decompose [or] H; try discriminate. congruence.
Qed.

Lemma createLog_falsy_payload_examples :
  let host := {| randomUUID := "3f2b8c1e-7a54-4d09-9b6e-0c1d2e3f4a5b"; now := 1700000000000 |} in
  Forall (fun v =>
            ToBoolean v = false /\
            createLog host UI ACCESS "Read access" (Some v) [] =
              createLog host UI ACCESS "Read access" None [] /\
            createLog host UI ACCESS "Read access" (Some v) [] =
              Normal (log_entry host UI ACCESS "Read access" VUndefined, []))
         [VNum (Int 0); VStr ""; VBool false; VNull].
Proof.
  cbv zeta.
  repeat (apply List.Forall_cons;
          [split; [reflexivity|];
           apply (createLog_falsy_payload _ UI ACCESS "Read access" _ []); reflexivity|]).
  constructor.
Defined.

(** C7. After [clear], [view] is the empty sequence, whatever was recorded
    before; [clear] on an empty sequence changes nothing; [clear] twice is
    [clear] once; it is a total function, with no way to fail. *)
Theorem clearLogs_empty (w : World) :
  logs (clearLogs w) = [] /\
  (forall calls w', run calls w = Normal w' -> logs (clearLogs w') = []) /\
  clearLogs {| heap_of := heap_of w; logs := [] |} = {| heap_of := heap_of w; logs := [] |} /\
  clearLogs (clearLogs w) = clearLogs w.
Proof.
  split; [reflexivity|]. split; [|split; reflexivity].
  intros calls w' _. reflexivity.
Qed.

(** C3 (amended). For a payload with a circular reference [record] throws a
    [TypeError]: [createLog] does, nothing catches it in [addLog], and no
    record is emitted. *)
Theorem addLog_circular_throws (host : Host) (L : Layer) (S : LogStatus)
  (m : string) (P : value) (w : World) :
  wf_heap (heap_of w) -> wf_value (heap_of w) P -> circular (heap_of w) P ->
  createLog host L S m (Some P) (heap_of w) = Throw TypeError /\
  addLog host L S m (Some P) w = Throw TypeError.
Proof.
  intros Hwf Hv Hcirc.
  assert (Hlog : createLog host L S m (Some P) (heap_of w) = Throw TypeError).
  { assert (Href : exists l0, P = VRef l0)
      by (destruct Hcirc as [l [[l0 [-> _]] _]]; eauto).
    destruct Href as [l0 ->]. unfold createLog; simpl.
    now rewrite (JSON_stringify_circular _ _ Hwf Hv Hcirc). }
  split; [exact Hlog|]. unfold addLog. now rewrite Hlog.
Qed.

(** An object whose property [self] is the object itself. *)
Definition self_referring : heap := [OObject [("self"%string, VRef 0)]].

Lemma self_referring_wf : wf_heap self_referring.
Proof.
  intros [|l] o Hl; [|discriminate]. injection Hl as <-.
  repeat constructor.
Qed.

Lemma self_referring_circular : circular self_referring (VRef 0).
Proof.
  exists 0. split.
  - exists 0. split; [reflexivity | apply rtc_refl].
  - apply tc_once. eexists. split; [reflexivity | apply list_elem_of_here].
Qed.

Lemma addLog_circular_example :
  let host := {| randomUUID := "3f2b8c1e-7a54-4d09-9b6e-0c1d2e3f4a5b"; now := 1700000000000 |} in
  let w := {| heap_of := self_referring; logs := [] |} in
  createLog host DATABASE COPY "Content copied" (Some (VRef 0)) (heap_of w) = Throw TypeError /\
  addLog host DATABASE COPY "Content copied" (Some (VRef 0)) w = Throw TypeError.
Proof.
  cbv zeta.
  apply (addLog_circular_throws _ DATABASE COPY "Content copied" (VRef 0)
           {| heap_of := self_referring; logs := [] |});
    [exact self_referring_wf | simpl; lia | exact self_referring_circular].
Defined.

(** C3, counterexample. With a payload that refers to itself [record]
    throws: it does not complete, and no world with one more record comes
    out of it. *)
Lemma addLog_circular_loses_record :
  let host := {| randomUUID := "3f2b8c1e-7a54-4d09-9b6e-0c1d2e3f4a5b"; now := 1700000000000 |} in
  let w := {| heap_of := self_referring; logs := [] |} in
  addLog host DATABASE COPY "Content copied" (Some (VRef 0)) w = Throw TypeError /\
  ~ (exists w', addLog host DATABASE COPY "Content copied" (Some (VRef 0)) w = Normal w').
Proof.
  cbv zeta. split; [reflexivity|]. intros [w' Hw']. discriminate Hw'.
Qed.

(** The trace identifier and the timestamp a call will stamp. *)
Definition call_traceId (c : Call) : string := slice0 8 (randomUUID (call_host c)).
Definition call_timestamp (c : Call) : Z := now (call_host c).

(** A call whose payload [record] is sure to capture. *)
Definition payload_ok (h : heap) (c : Call) : Prop := capturable h (call_payload c).

Lemma record_Normal c w w' :
  record c w = Normal w' ->
  exists r ext,
    w' = {| heap_of := heap_of w ++ ext; logs := logs w ++ [r] |} /\
    traceId r = call_traceId c /\ timestamp r = call_timestamp c /\
    layer r = call_layer c /\ status r = call_status c /\ message r = call_message c.
Proof.
  unfold record, addLog. intros Hrec.
  apply bind_Normal in Hrec as [[r h'] [Hlog Hw']]. injection Hw' as <-.
  destruct (createLog_extends _ _ _ _ _ _ _ _ Hlog) as [ext ->].
  apply createLog_Normal in Hlog as [Hr _].
  exists r, ext. split; [reflexivity|]. rewrite Hr. simpl. tauto.
Qed.

Lemma record_returns c w :
  payload_ok (heap_of w) c -> exists w', record c w = Normal w'.
Proof.
  intros Hok. unfold record, addLog.
  destruct (createLog_returns (call_host c) (call_layer c) (call_status c)
              (call_message c) (call_payload c) (heap_of w) Hok)
    as [r [h' Hlog]].
  rewrite Hlog. simpl. now eexists.
Qed.

Lemma payload_ok_extend h ext c : payload_ok h c -> payload_ok (h ++ ext) c.
Proof.
  intros [Hnone | [P [HP [Hfalsy | [j Hrep]]]]]; [now left | |].
  - right. exists P. split; [exact HP | now left].
  - right. exists P. split; [exact HP|]. right. exists j.
    now apply represents_extend.
Qed.

(** C1 (amended). A sequence of N calls of [record] none of which throws
    (and none does when every payload is absent, falsy or plain JSON data)
    adds exactly N records to [view], in call order: the i-th carries the
    layer, status and message of the i-th call, the first eight characters
    of the UUID generated during it, and the clock reading taken during it.
    So the trace identifiers are pairwise distinct when those eight-character
    prefixes are, and the timestamps are non-decreasing when the clock
    readings are. *)
Theorem run_view (calls : list Call) (w : World) :
  (Forall (payload_ok (heap_of w)) calls -> exists w', run calls w = Normal w') /\
  (forall w', run calls w = Normal w' ->
     exists new,
       logs w' = logs w ++ new /\
       length new = length calls /\
       map traceId new = map call_traceId calls /\
       map timestamp new = map call_timestamp calls /\
       map layer new = map call_layer calls /\
       map status new = map call_status calls /\
       map message new = map call_message calls /\
       (NoDup (map call_traceId calls) -> NoDup (map traceId new)) /\
       (StronglySorted Z.le (map call_timestamp calls) ->
        StronglySorted Z.le (map timestamp new))).
Proof.
  split.
  - revert w. induction calls as [|c calls IH]; intros w Hok; simpl.
    + now eexists.
    + apply Forall_cons in Hok as [Hc Hok].
      destruct (record_returns c w Hc) as [w1 Hw1]. rewrite Hw1. simpl.
      apply IH. destruct (record_Normal c w w1 Hw1) as [r [ext [-> _]]]. simpl.
      eapply Forall_impl; [exact Hok|]. intros c'. apply payload_ok_extend.
  - assert (Hfields : forall w', run calls w = Normal w' ->
       exists new, logs w' = logs w ++ new /\
         map traceId new = map call_traceId calls /\
         map timestamp new = map call_timestamp calls /\
         map layer new = map call_layer calls /\
         map status new = map call_status calls /\
         map message new = map call_message calls).
    { revert w. induction calls as [|c calls IH]; intros w w'; simpl.
      - intros [= <-]. exists []. now rewrite app_nil_r.
      - intros Hrun. apply bind_Normal in Hrun as [w1 [Hw1 Hrun]].
        destruct (record_Normal c w w1 Hw1) as [r [ext [-> [Ht [Hc [Hl [Hs Hm]]]]]]].
        destruct (IH _ _ Hrun) as [new [Hlogs [Ht' [Hc' [Hl' [Hs' Hm']]]]]].
        simpl in Hlogs. exists (r :: new). simpl.
        split; [now rewrite Hlogs, <- app_assoc|].
        repeat split; congruence. }
    intros w' Hrun. destruct (Hfields w' Hrun) as [new [Hlogs [Ht [Hc [Hl [Hs Hm]]]]]].
    exists new. split; [exact Hlogs|]. split.
    { rewrite <- (length_map traceId new), Ht. apply length_map. }
    repeat (split; [assumption|]). now rewrite Ht, Hc.
Qed.

(** The scenario of three calls with statuses ACCESS, ACCESS and COPY, the
    last with the payload the application logs at start-up. *)
Lemma run_view_example :
  let call u t S P :=
    {| call_host := {| randomUUID := u; now := t |}; call_layer := UI;
       call_status := S; call_message := "action"; call_payload := P |} in
  let calls :=
    [call "0b9d4c67-52f1-4e3a-a8d0-6c2f19e7b345"%string 1700000000000%Z ACCESS None;
     call "c41a7e02-9f6b-4b1d-8e55-2d7a0c93f618"%string 1700000000000%Z ACCESS (Some (VNum (Int 0)));
     call "7e55d1f9-03ac-4c72-b61e-f4a8295d0c7b"%string 1700000000250%Z COPY (Some (VRef 0))] in
  let w := {| heap_of := [OObject [("entries"%string, VNum (Int 15))]]; logs := [] |} in
  exists w',
    run calls w = Normal w' /\
    length (logs w') = 3 /\
    map status (logs w') = [ACCESS; ACCESS; COPY] /\
    NoDup (map traceId (logs w')) /\
    StronglySorted Z.le (map timestamp (logs w')).
Proof.
  cbv zeta.
  match goal with |- exists w', run ?calls ?w = _ /\ _ =>
    destruct (run_view calls w) as [Hreturns Hright] end.
  destruct Hreturns as [w' Hrun].
  { apply List.Forall_cons; [|apply List.Forall_cons; [|apply List.Forall_cons; [|constructor]]].
    - now left.
    - right. eexists. split; [reflexivity | now left].
    - right. eexists. split; [reflexivity|]. right.
      exists (JObj [("entries"%string, JNum 15)]).
      apply (represents_obj _ _ _ _ [("entries"%string, VNum (Int 15))]);
        [lia | reflexivity |].
      constructor; [|constructor]. split; [reflexivity | constructor]. }
  exists w'. split; [exact Hrun|].
  destruct (Hright w' Hrun) as [new [Hlogs [Hlen [Ht [Hc [_ [Hs [_ [Hnd Hsorted]]]]]]]]].
  simpl in Hlogs. rewrite Hlogs. split; [exact Hlen|]. split; [exact Hs|]. split.
  - apply Hnd. simpl. unfold call_traceId; simpl.
    repeat constructor; rewrite ?elem_of_cons, ?elem_of_nil; intuition discriminate.
  - apply Hsorted. simpl. unfold call_timestamp; simpl.
    repeat constructor; lia.
Defined.

(** C1, counterexample. Two calls during which two different UUIDs with the
    same first eight characters are generated, and between which the clock
    is set back: both records come out, with the same trace identifier and
    with decreasing timestamps. *)
Lemma run_trace_collision :
  let call u t :=
    {| call_host := {| randomUUID := u; now := t |}; call_layer := UI;
       call_status := ACCESS; call_message := "Read access"; call_payload := None |} in
  let c1 := call "6f1c2a9e-1111-4111-8111-111111111111"%string 2000%Z in
  let c2 := call "6f1c2a9e-2222-4222-9222-222222222222"%string 1000%Z in
  randomUUID (call_host c1) <> randomUUID (call_host c2) /\
  exists r1 r2,
    run [c1; c2] {| heap_of := []; logs := [] |} =
      Normal {| heap_of := []; logs := [r1; r2] |} /\
    traceId r1 = traceId r2 /\ (timestamp r2 < timestamp r1)%Z /\
    ~ NoDup (map traceId [r1; r2]) /\
    ~ StronglySorted Z.le (map timestamp [r1; r2]).
Proof.
  cbv zeta. split; [discriminate|]. eexists _, _.
  split; [reflexivity|]. simpl. split; [reflexivity|]. split; [lia|]. split.
  - intros Hnd. apply NoDup_cons in Hnd as [Hnin _]. apply Hnin. now left.
  - intros Hs. apply StronglySorted_inv in Hs as [_ Hall].
    apply Forall_cons in Hall as [Hle _]. lia.
Qed.

End LogProofs.

(** * Properties of the display helper *)

Module StringFacts.

Lemma append_assoc (a b c : string) : ((a ++ b) ++ c = a ++ b ++ c)%string.
Proof.
  induction a as [|x a IH]; [reflexivity|].
  change (String x ((a ++ b) ++ c) = String x (a ++ b ++ c))%string.
  now rewrite IH.
Qed.

Lemma append_nil_r (a : string) : (a ++ "")%string = a.
Proof.
  induction a as [|x a IH]; [reflexivity|].
  change (String x (a ++ "") = String x a)%string. now rewrite IH.
Qed.

Lemma append_length (a b : string) :
  String.length (a ++ b) = String.length a + String.length b.
Proof.
  induction a as [|x a IH]; [reflexivity|].
  change (S (String.length (a ++ b)) = S (String.length a + String.length b)).
  now rewrite IH.
Qed.

End StringFacts.

Module DisplayProofs.
Import Display StringFacts.

(** [w] is the encoding of one white-space character. *)
Definition whitespace_char (w : string) : bool :=
  match w with
  | String c EmptyString => whitespace1 c
  | String c (String d EmptyString) => whitespace2 c d
  | String c (String d (String e EmptyString)) => whitespace3 c d e
  | _ => false
  end.

(** [s] is a run of white-space characters. *)
Inductive blank : string -> Prop :=
  | blank_empty : blank EmptyString
  | blank_more (w s : string) :
      whitespace_char w = true -> blank s -> blank (w ++ s).

Definition begins_with_whitespace (s : string) : Prop :=
  exists w rest : string, whitespace_char w = true /\ s = (w ++ rest)%string.

Definition ends_with_whitespace (s : string) : Prop :=
  exists rest w : string, whitespace_char w = true /\ s = (rest ++ w)%string.

(** Neither the first nor the last character is white space. *)
Definition clean_edges (s : string) : Prop :=
  ~ begins_with_whitespace s /\ ~ ends_with_whitespace s.

(** [s] without the white-space character it begins with, if any. *)
Definition strip (s : string) : option string :=
  match s with
  | EmptyString => None
  | String c s1 =>
      if whitespace1 c then Some s1
      else
        match s1 with
        | EmptyString => None
        | String d s2 =>
            if whitespace2 c d then Some s2
            else
              match s2 with
              | EmptyString => None
              | String e s3 => if whitespace3 c d e then Some s3 else None
              end
        end
  end.

Lemma trimStart_strip (s : string) :
  trimStart s = match strip s with Some r => trimStart r | None => s end.
Proof.
  destruct s as [|c [|d [|e s3]]]; try reflexivity; unfold strip.
  - simpl. now destruct (whitespace1 c).
  - change (trimStart (String c (String d EmptyString))) with
      (if whitespace1 c then trimStart (String d EmptyString)
       else if whitespace2 c d then trimStart EmptyString
       else String c (String d EmptyString)).
    destruct (whitespace1 c); [reflexivity|]. now destruct (whitespace2 c d).
  - change (trimStart (String c (String d (String e s3)))) with
      (if whitespace1 c then trimStart (String d (String e s3))
       else if whitespace2 c d then trimStart (String e s3)
       else if whitespace3 c d e then trimStart s3
       else String c (String d (String e s3))).
    destruct (whitespace1 c); [reflexivity|].
    destruct (whitespace2 c d); [reflexivity|]. now destruct (whitespace3 c d e).
Qed.

Lemma whitespace2_lead (c d : ascii) :
  whitespace2 c d = true -> whitespace1 c = false.
Proof.
  unfold whitespace2, whitespace1. intros H.
  apply andb_true_iff in H as [H _]. apply Nat.eqb_eq in H. now rewrite H.
Qed.

Lemma whitespace3_lead (c d e : ascii) :
  whitespace3 c d e = true -> whitespace1 c = false /\ whitespace2 c d = false.
Proof.
  unfold whitespace3, whitespace2, whitespace1. intros H.
  destruct (nat_of_ascii c =? 225)%nat eqn:H1;
    [apply Nat.eqb_eq in H1; now rewrite H1|].
  destruct (nat_of_ascii c =? 226)%nat eqn:H2;
    [apply Nat.eqb_eq in H2; now rewrite H2|].
  destruct (nat_of_ascii c =? 227)%nat eqn:H3;
    [apply Nat.eqb_eq in H3; now rewrite H3|].
  destruct (nat_of_ascii c =? 239)%nat eqn:H4;
    [apply Nat.eqb_eq in H4; now rewrite H4|].
  discriminate H.
Qed.

Lemma strip_Some (s r : string) :
  strip s = Some r <-> exists w, whitespace_char w = true /\ s = (w ++ r)%string.
Proof.
  split.
  - destruct s as [|c s1]; [discriminate|]. unfold strip.
    destruct (whitespace1 c) eqn:H1.
    { intros [= <-]. exists (String c EmptyString). now split. }
    destruct s1 as [|d s2]; [discriminate|].
    destruct (whitespace2 c d) eqn:H2.
    { intros [= <-]. exists (String c (String d EmptyString)). now split. }
    destruct s2 as [|e s3]; [discriminate|].
    destruct (whitespace3 c d e) eqn:H3; [|discriminate].
    intros [= <-]. exists (String c (String d (String e EmptyString))). now split.
  - intros [w [Hw ->]].
    destruct w as [|c [|d [|e [|f w]]]]; try discriminate Hw; simpl in Hw.
    + change (strip (String c r) = Some r). unfold strip. now rewrite Hw.
    + change (strip (String c (String d r)) = Some r). unfold strip.
      now rewrite (whitespace2_lead c d Hw), Hw.
    + change (strip (String c (String d (String e r))) = Some r). unfold strip.
      destruct (whitespace3_lead c d e Hw) as [H1 H2]. now rewrite H1, H2, Hw.
Qed.

Lemma strip_None (s : string) : strip s = None <-> ~ begins_with_whitespace s.
Proof.
  unfold begins_with_whitespace. split.
  - intros Hn [w [rest [Hw Hs]]].
    assert (H : strip s = Some rest) by (apply strip_Some; now exists w).
    congruence.
  - intros Hb. destruct (strip s) as [r|] eqn:Hr; [|reflexivity].
    destruct Hb. apply strip_Some in Hr as [w [Hw Hs]]. now exists w, r.
Qed.

Lemma strip_shorter (s r : string) :
  strip s = Some r -> String.length r < String.length s.
Proof.
  intros H. apply strip_Some in H as [w [Hw ->]]. rewrite append_length.
  destruct w; [discriminate Hw | simpl; lia].
Qed.

Lemma trimStart_fixed (s : string) :
  ~ begins_with_whitespace s -> trimStart s = s.
Proof. intros H. apply strip_None in H. now rewrite trimStart_strip, H. Qed.

Lemma trimStart_split (s : string) :
  exists pre, s = (pre ++ trimStart s)%string /\ blank pre /\
    ~ begins_with_whitespace (trimStart s).
Proof.
  remember (String.length s) as n eqn:Hn. revert s Hn.
  induction n as [n IH] using lt_wf_ind. intros s ->.
  rewrite trimStart_strip. destruct (strip s) as [r|] eqn:Hr.
  - destruct (IH _ (strip_shorter s r Hr) r eq_refl) as [pre [Hs [Hpre Hb]]].
    apply strip_Some in Hr as [w [Hw ->]].
    exists (w ++ pre)%string. split; [|split; [now constructor | exact Hb]].
    rewrite append_assoc. now rewrite <- Hs.
  - exists EmptyString. split; [reflexivity|]. split; [constructor|].
    now apply strip_None.
Qed.

Lemma trimStart_blank (s : string) : blank s -> trimStart s = EmptyString.
Proof.
  induction 1 as [|w s Hw Hs IH]; [reflexivity|].
  rewrite trimStart_strip.
  assert (H : strip (w ++ s) = Some s) by (apply strip_Some; now exists w).
  now rewrite H.
Qed.

Lemma is_blank_spec (s : string) : is_blank s = true <-> blank s.
Proof.
  unfold is_blank. split.
  - destruct (trimStart_split s) as [pre [Hs [Hpre _]]].
    destruct (trimStart s); [|discriminate]. intros _.
    rewrite append_nil_r in Hs. now subst.
  - intros H. now rewrite (trimStart_blank s H).
Qed.

Lemma blank_app (a b : string) : blank a -> blank b -> blank (a ++ b).
Proof.
  induction 1 as [|w a Hw Ha IH]; intros Hb; [exact Hb|].
  rewrite append_assoc. constructor; [exact Hw | now apply IH].
Qed.

Lemma blank_ends (s : string) :
  blank s -> s <> EmptyString -> ends_with_whitespace s.
Proof.
  induction 1 as [|w s Hw Hs IH]; intros Hne; [now destruct Hne|].
  destruct s as [|c s].
  - exists EmptyString, w. split; [exact Hw | now rewrite append_nil_r].
  - destruct IH as [rest [w' [Hw' Heq]]]; [discriminate|].
    exists (w ++ rest)%string, w'. split; [exact Hw'|].
    now rewrite Heq, append_assoc.
Qed.

Lemma not_ends_empty : ~ ends_with_whitespace EmptyString.
Proof.
  intros [rest [w [Hw Hs]]]. destruct rest; [|discriminate Hs].
  change (EmptyString = w) in Hs. subst w. discriminate Hw.
Qed.

Lemma trimEnd_split (s : string) :
  exists post, s = (trimEnd s ++ post)%string /\ blank post /\
    ~ ends_with_whitespace (trimEnd s).
Proof.
  induction s as [|c s [post [Hs [Hpost Hlast]]]].
  - exists EmptyString. split; [reflexivity|]. split; [constructor|].
    exact not_ends_empty.
  - change (trimEnd (String c s)) with
      (if is_blank (String c s) then EmptyString else String c (trimEnd s)).
    destruct (is_blank (String c s)) eqn:Hb.
    + exists (String c s). split; [reflexivity|].
      split; [now apply is_blank_spec | exact not_ends_empty].
    + exists post. split; [exact (f_equal (String c) Hs)|]. split; [exact Hpost|].
      intros [rest [w [Hw Heq]]]. destruct rest as [|c' rest].
      * change (String c (trimEnd s) = w) in Heq. subst w.
        assert (Hbl : blank (String c s)).
        { rewrite Hs. change (blank (String c (trimEnd s) ++ post)).
          now constructor. }
        apply is_blank_spec in Hbl. congruence.
      * change (String c (trimEnd s) = String c' (rest ++ w)%string) in Heq.
        injection Heq as _ Heq. apply Hlast. now exists rest, w.
Qed.

Lemma trimEnd_empty (s : string) : trimEnd s = EmptyString <-> blank s.
Proof.
  destruct s as [|c s]; [split; [constructor | reflexivity]|].
  change (trimEnd (String c s)) with
    (if is_blank (String c s) then EmptyString else String c (trimEnd s)).
  rewrite <- is_blank_spec. destruct (is_blank (String c s)); [tauto|].
  split; discriminate.
Qed.

Lemma trimEnd_fixed (s : string) : ~ ends_with_whitespace s -> trimEnd s = s.
Proof.
  induction s as [|c s IH]; [reflexivity|]. intros Hlast.
  change (trimEnd (String c s)) with
    (if is_blank (String c s) then EmptyString else String c (trimEnd s)).
  destruct (is_blank (String c s)) eqn:Hb.
  - destruct Hlast. apply blank_ends; [now apply is_blank_spec | discriminate].
  - rewrite IH; [reflexivity|]. intros [rest [w [Hw Heq]]]. apply Hlast.
    exists (String c rest), w. split; [exact Hw|]. exact (f_equal (String c) Heq).
Qed.

Lemma trim_split (s : string) :
  exists pre post,
    s = (pre ++ trim s ++ post)%string /\ blank pre /\ blank post /\
    clean_edges (trim s).
Proof.
  unfold trim.
  destruct (trimStart_split s) as [pre [Hs [Hpre Hfirst]]].
  destruct (trimEnd_split (trimStart s)) as [post [Hs' [Hpost Hlast]]].
  exists pre, post. split; [now rewrite <- Hs'|]. split; [exact Hpre|].
  split; [exact Hpost|]. split; [|exact Hlast].
  intros [w [rest [Hw Heq]]]. apply Hfirst.
  exists w, (rest ++ post)%string. split; [exact Hw|].
  rewrite Hs' at 1. now rewrite Heq, append_assoc.
Qed.

Lemma trim_fixed (s : string) : clean_edges s -> trim s = s.
Proof.
  intros [Hfirst Hlast]. unfold trim.
  rewrite (trimStart_fixed s Hfirst). now apply trimEnd_fixed.
Qed.

Lemma trim_empty (s : string) : trim s = EmptyString <-> blank s.
Proof.
  unfold trim. rewrite trimEnd_empty.
  destruct (trimStart_split s) as [pre [Hs [Hpre Hb]]]. split.
  - intros H. rewrite Hs. now apply blank_app.
  - intros H. rewrite (trimStart_blank s H). constructor.
Qed.

(** A byte order mark, a no-break space and a tab before the text, a line
    separator and a line feed after it. *)
Definition bytes (l : list nat) : string :=
  fold_right (fun n s => String (ascii_of_nat n) s) EmptyString l.

Example trim_unicode :
  trim (bytes [239; 187; 191; 194; 160; 9] ++ "a  b" ++ bytes [226; 128; 168; 10])
  = "a  b"%string.
Proof. reflexivity. Qed.

(** A character that only shares its first bytes with a white-space
    character stays: U+2010 (E2 80 90) is a hyphen. *)
Example trim_keeps_hyphen :
  trim (bytes [32; 226; 128; 144; 32]) = bytes [226; 128; 144].
Proof. reflexivity. Qed.

(** X1. The text [formatCodeForDisplay] returns is the snippet without the
    white space at its two ends: the snippet is a run of white-space
    characters, the text, and a run of white-space characters, and the text
    neither begins nor ends with a white-space character. *)
Theorem formatCodeForDisplay_trims (doc : ReferenceDoc) :
  exists pre post,
    codeSnippet doc = (pre ++ formatCodeForDisplay doc ++ post)%string /\
    blank pre /\ blank post /\
    clean_edges (formatCodeForDisplay doc).
Proof. unfold formatCodeForDisplay. apply trim_split. Qed.

(** X2. Formatting is idempotent (formatting the formatted text changes
    nothing), it leaves alone a snippet with clean ends, and it returns the
    empty text exactly for a snippet that is all white space. *)
Theorem formatCodeForDisplay_stable (doc : ReferenceDoc) :
  trim (formatCodeForDisplay doc) = formatCodeForDisplay doc /\
  (clean_edges (codeSnippet doc) -> formatCodeForDisplay doc = codeSnippet doc) /\
  (formatCodeForDisplay doc = EmptyString <-> blank (codeSnippet doc)).
Proof.
  unfold formatCodeForDisplay. split; [|split].
  - apply trim_fixed.
    destruct (trim_split (codeSnippet doc)) as [_ [_ [_ [_ [_ H]]]]]. exact H.
  - apply trim_fixed.
  - apply trim_empty.
Qed.

End DisplayProofs.

(** * When the snapshot fails, and what it keeps *)

Module CaptureProofs.
Import JS JSString Logger AppLog StringifyProofs SnapshotProofs LogProofs.







Lemma wf_value_extend h ext v : wf_value h v -> wf_value (h ++ ext) v.
Proof. destruct v; simpl; try done. rewrite length_app. lia. Qed.

Lemma wf_heap_alloc h o :
  wf_heap h -> Forall (wf_value h) (children o) -> wf_heap (h ++ [o]).
Proof.
  intros Hwf Ho l o' Hl. apply lookup_app_Some in Hl as [Hl | [Hge Hl]].
  - eapply Forall_impl; [exact (Hwf l o' Hl)|]. intros v. apply wf_value_extend.
  - destruct (l - length h) as [|n]; [|discriminate]. injection Hl as <-.
    eapply Forall_impl; [exact Ho|]. intros v. apply wf_value_extend.
Qed.

(** [revive] keeps the heap well formed and returns a value of the heap. *)
Definition revive_keeps_wf (j : json) : Prop :=
  forall h, wf_heap h ->
    wf_heap (revive j h).2 /\ wf_value (revive j h).2 (revive j h).1.

Lemma revive_items_keeps_wf js :
  Forall revive_keeps_wf js ->
  forall h, wf_heap h ->
    wf_heap (revive_items revive js h).2 /\
    Forall (wf_value (revive_items revive js h).2) (revive_items revive js h).1.
Proof.
  induction 1 as [|j js Hj _ IH]; intros h Hwf; simpl; [now split|].
  destruct (Hj h Hwf) as [Hwf1 Hv].
  destruct (revive j h) as [v h1]; simpl in *.
  assert (Hok : Forall revive_ok js) by (apply Forall_forall; intros; apply revive_spec).
  destruct (revive_items_ok js Hok h1) as [ext [Hext _]].
  destruct (IH h1 Hwf1) as [Hwf2 Hvs].
  destruct (revive_items revive js h1) as [vs h2]; simpl in *. subst h2.
  split; [exact Hwf2|]. constructor; [now apply wf_value_extend | exact Hvs].
Qed.

Lemma revive_members_keeps_wf (ms : list (string * json)) :
  Forall (fun m => revive_keeps_wf m.2) ms ->
  forall h, wf_heap h ->
    wf_heap (revive_members revive ms h).2 /\
    Forall (wf_value (revive_members revive ms h).2) (revive_members revive ms h).1.*2.
Proof.
  induction 1 as [|[k j] ms Hj _ IH]; intros h Hwf; simpl; [now split|].
  simpl in Hj. destruct (Hj h Hwf) as [Hwf1 Hv].
  destruct (revive j h) as [v h1]; simpl in *.
  assert (Hok : Forall (fun m : string * json => revive_ok m.2) ms)
    by (apply Forall_forall; intros; apply revive_spec).
  destruct (revive_members_ok ms Hok h1) as [ext [Hext _]].
  destruct (IH h1 Hwf1) as [Hwf2 Hvs].
  destruct (revive_members revive ms h1) as [ps h2]; simpl in *. subst h2.
  split; [exact Hwf2|]. constructor; [now apply wf_value_extend | exact Hvs].
Qed.

Lemma revive_wf j : revive_keeps_wf j.
Proof.
  induction j as [| | | |js IH|ms IH] using json_induction; intros h Hwf;
    try (simpl; now split).
  - destruct (revive_items_keeps_wf js IH h Hwf) as [Hwf1 Hvs]. simpl.
    destruct (revive_items revive js h) as [vs h1]; simpl in *.
    split; [now apply wf_heap_alloc|]. rewrite length_app. simpl. lia.
  - destruct (revive_members_keeps_wf ms IH h Hwf) as [Hwf1 Hvs]. simpl.
    destruct (revive_members revive ms h) as [ps h1]; simpl in *.
    split; [now apply wf_heap_alloc|]. rewrite length_app. simpl. lia.
Qed.

Lemma createLog_wf host L S m arg h r h' :
  wf_heap h -> createLog host L S m arg h = Normal (r, h') ->
  wf_heap h' /\ wf_value h' (payload r).
Proof.
  intros Hwf Hlog.
  apply createLog_Normal in Hlog as [_ [[_ [-> ->]] | [_ [j [_ Hrev]]]]].
  - now split.
  - pose proof (revive_wf j h Hwf) as Hj. now rewrite Hrev in Hj.
Qed.








(** An object with one numeric property, and an array that holds it twice. *)
Definition shared_heap : heap :=
  [OObject [("entries"%string, VNum (Int 15))]; OArray [VRef 0; VRef 0]].

Lemma shared_heap_wf : wf_heap shared_heap.
Proof.
  intros [|[|l]] o Hl; try discriminate; injection Hl as <-;
    repeat constructor.
Qed.



(** X4. [record] keeps the heap well formed, and the payload it stores is a
    value of the new heap; over a sequence of calls, every stored payload
    stays a value of the heap: the log never holds a dangling reference. *)
Theorem run_keeps_wf (calls : list Call) (w w' : World) :
  wf_heap (heap_of w) ->
  Forall (fun r => wf_value (heap_of w) (payload r)) (logs w) ->
  run calls w = Normal w' ->
  wf_heap (heap_of w') /\
  Forall (fun r => wf_value (heap_of w') (payload r)) (logs w').
Proof.
  revert w. induction calls as [|c calls IH]; intros w Hwf Hlogs Hrun; simpl in Hrun.
  - injection Hrun as <-. now split.
  - apply bind_Normal in Hrun as [w1 [Hrec Hrun]].
    apply (IH w1); [| |exact Hrun]; unfold record, addLog in Hrec;
      apply bind_Normal in Hrec as [[r h'] [Hlog Hw1]]; injection Hw1 as <-; simpl;
      destruct (createLog_wf _ _ _ _ _ _ _ _ Hwf Hlog) as [Hwf' Hr];
      [exact Hwf'|].
    destruct (createLog_extends _ _ _ _ _ _ _ _ Hlog) as [ext ->].
    apply Forall_app. split; [|now constructor].
    eapply Forall_impl; [exact Hlogs|]. intros r0. apply wf_value_extend.
Qed.

Lemma run_keeps_wf_example :
  let call u P :=
    {| call_host := {| randomUUID := u; now := 1700000000000 |}; call_layer := UI;
       call_status := ACCESS; call_message := "action"; call_payload := P |} in
  let calls := [call "0b9d4c67-52f1-4e3a-a8d0-6c2f19e7b345"%string (Some (VRef 1));
                call "c41a7e02-9f6b-4b1d-8e55-2d7a0c93f618"%string None] in
  exists w',
    run calls {| heap_of := shared_heap; logs := [] |} = Normal w' /\
    wf_heap (heap_of w') /\
    Forall (fun r => wf_value (heap_of w') (payload r)) (logs w').
Proof.
  cbv zeta.
  match goal with |- exists w', ?r = Normal w' /\ _ =>
    let v := eval vm_compute in r in
    assert (Hrun : r = v) by (vm_compute; reflexivity) end.
  eexists. split; [exact Hrun|].
  exact (run_keeps_wf _ {| heap_of := shared_heap; logs := [] |} _
           shared_heap_wf (List.Forall_nil _) Hrun).
Defined.








Lemma revive_stringify (j : json) (h : heap) :
  JSON_stringify (revive j h).2 (revive j h).1 = Normal (Some j).
Proof.
  destruct (revive_spec j h) as [ext [_ Hrep]].
  apply JSON_stringify_represents. revert Hrep.
  apply represents_preserved; [lia | tauto].
Qed.

(** X6. The payload a record stores for a truthy payload [P] serialises, in
    the heap the call leaves, to the text [P] had when the call was made:
    recording the stored payload again would store the same content. *)
Theorem createLog_same_text (host : Host) (L : Layer) (S : LogStatus) (m : string)
  (P : value) (h : heap) (r : TrafficLog) (h' : heap) :
  createLog host L S m (Some P) h = Normal (r, h') ->
  ToBoolean P = true ->
  JSON_stringify h' (payload r) = JSON_stringify h P.
Proof.
  intros Hlog Htruthy.
  apply createLog_Normal in Hlog as [_ [[Hfalsy _] | [_ [j [Hs Hrev]]]]];
    simpl in *; [congruence|].
  rewrite Hs. pose proof (revive_stringify j h) as Hj. now rewrite Hrev in Hj.
Qed.

Lemma createLog_same_text_example :
  let host := {| randomUUID := "0b9d4c67-52f1-4e3a-a8d0-6c2f19e7b345"; now := 1700000000000 |} in
  exists r h',
    createLog host UI ACCESS "shared" (Some (VRef 1)) shared_heap = Normal (r, h') /\
    JSON_stringify h' (payload r) = JSON_stringify shared_heap (VRef 1) /\
    JSON_stringify h' (payload r) =
      Normal (Some (JArr [JObj [("entries"%string, JNum 15)];
                          JObj [("entries"%string, JNum 15)]])).
Proof.
  cbv zeta.
  match goal with |- context [createLog ?a ?b ?c ?d ?e ?f] =>
    let v := eval vm_compute in (createLog a b c d e f) in
    assert (Hlog : createLog a b c d e f = v) by (vm_compute; reflexivity) end.
  eexists _, _. split; [exact Hlog|].
  pose proof (createLog_same_text _ _ _ _ _ _ _ _ Hlog eq_refl) as Htext.
  split; [exact Htext|]. rewrite Htext. reflexivity.
Defined.

(** The values that are not references, and what the snapshot makes of
    them where it keeps them: [undefined], [NaN] and the infinities become
    [null], the negative zero becomes zero. *)
Definition primitive (v : value) : bool :=
  match v with
  | VRef _ => false
  | _ => true
  end.

Definition stored_primitive (v : value) : value :=
  match v with
  | VUndefined | VNum NaN | VNum (Infinity _) => VNull
  | VNum NegZero => VNum (Int 0)
  | _ => v
  end.

(** X7. A truthy payload that is not an object or array is stored without
    any allocation: as itself when it is [true], a non-zero integer or a
    non-empty string, as [null] when it is an infinity. *)
Theorem createLog_primitive (host : Host) (L : Layer) (S : LogStatus) (m : string)
  (P : value) (h : heap) :
  primitive P = true -> ToBoolean P = true ->
  createLog host L S m (Some P) h =
  Normal (log_entry host L S m (stored_primitive P), h).
Proof.
  intros Hprim Htruthy. unfold createLog, JSON_stringify; simpl. rewrite Htruthy.
  destruct P as [| |b|[]|s|l]; try discriminate; destruct (length h); reflexivity.
Qed.

Lemma createLog_primitive_example :
  let host := {| randomUUID := "0b9d4c67-52f1-4e3a-a8d0-6c2f19e7b345"; now := 1700000000000 |} in
  createLog host UI ACCESS "count" (Some (VNum (Int 15))) shared_heap =
    Normal (log_entry host UI ACCESS "count" (VNum (Int 15)), shared_heap) /\
  createLog host UI ACCESS "count" (Some (VNum (Infinity false))) shared_heap =
    Normal (log_entry host UI ACCESS "count" VNull, shared_heap).
Proof.
  cbv zeta. split.
  - apply (createLog_primitive _ UI ACCESS "count" (VNum (Int 15))); reflexivity.
  - apply (createLog_primitive _ UI ACCESS "count" (VNum (Infinity false))); reflexivity.
Defined.

(** What [SerializeJSONProperty] returns on a value that is not a
    reference. *)
Definition primitive_json (x : value) : option json :=
  match x with
  | VUndefined | VRef _ => None
  | VNull => Some JNull
  | VBool b => Some (JBool b)
  | VNum (Int z) => Some (JNum z)
  | VNum NegZero => Some (JNum 0)
  | VNum _ => Some JNull
  | VStr s => Some (JStr s)
  end.

Lemma SerializeJSONProperty_primitive fuel h stack x :
  primitive x = true ->
  SerializeJSONProperty fuel h stack x = Normal (primitive_json x).
Proof. destruct x as [| |b|[]|s|l]; try discriminate; destruct fuel; reflexivity. Qed.

Lemma represents_stored_primitive n h x v :
  primitive x = true ->
  represents n h (default JNull (primitive_json x)) v -> v = stored_primitive x.
Proof.
  destruct x as [| |b|[]|s|l]; try discriminate; simpl; intros _ Hrep;
    inversion Hrep; reflexivity.
Qed.

Lemma SerializeJSONProperty_None fuel h stack x o :
  SerializeJSONProperty fuel h stack x = Normal o -> (o = None <-> x = VUndefined).
Proof.
  destruct x as [| |b|[]|s|l];
    try (destruct fuel; simpl; intros [= <-]; split; intros; congruence).
  intros Hser. split; [|discriminate]. intros ->.
  destruct fuel as [|fuel]; simpl in Hser;
    (case_bool_decide; [discriminate|]);
    destruct (h !! l) as [[xs|ps]|]; try discriminate.
  - destruct (SerializeJSONArray _ xs); discriminate.
  - destruct (SerializeJSONObject _ ps); discriminate.
Qed.

Lemma SerializeJSONArray_Forall2 ser xs js :
  SerializeJSONArray ser xs = Normal js ->
  Forall2 (fun x j => exists o, ser x = Normal o /\ j = default JNull o) xs js.
Proof.
  revert js. induction xs as [|x xs IH]; simpl; intros js Hjs.
  - injection Hjs as <-. constructor.
  - apply bind_Normal in Hjs as [o [Ho Hjs]].
    apply bind_Normal in Hjs as [js' [Hjs' [= <-]]].
    constructor; [now exists o | now apply IH].
Qed.

(** The properties of an object that have a value other than [undefined]. *)
Definition defined (p : string * value) : bool :=
  match p.2 with
  | VUndefined => false
  | _ => true
  end.

Lemma SerializeJSONObject_Forall2 ser (ps : list (string * value)) ms :
  (forall x o, ser x = Normal o -> (o = None <-> x = VUndefined)) ->
  SerializeJSONObject ser ps = Normal ms ->
  Forall2 (fun p m => m.1 = p.1 /\ ser p.2 = Normal (Some m.2))
          (List.filter defined ps) ms.
Proof.
  intros Hnone. revert ms. induction ps as [|[k x] ps IH]; simpl; intros ms Hms.
  - injection Hms as <-. constructor.
  - apply bind_Normal in Hms as [o [Ho Hms]].
    apply bind_Normal in Hms as [ms' [Hms' Hret]].
    pose proof (Hnone x o Ho) as Hx. unfold defined at 1. simpl.
    destruct o as [j|]; injection Hret as <-.
    + destruct x; try (constructor; [now split | now apply IH]).
      discriminate (proj2 Hx eq_refl).
    + rewrite (proj1 Hx eq_refl). now apply IH.
Qed.

Lemma SerializeJSONProperty_array fuel h stack l xs o :
  h !! l = Some (OArray xs) ->
  SerializeJSONProperty fuel h stack (VRef l) = Normal o ->
  exists fuel' js, o = Some (JArr js) /\
    SerializeJSONArray (SerializeJSONProperty fuel' h (l :: stack)) xs = Normal js.
Proof.
  intros Hl. destruct fuel as [|fuel']; simpl;
    (case_bool_decide; [discriminate|]); rewrite Hl; [discriminate|].
  intros Hs. apply bind_Normal in Hs as [js [Hjs [= <-]]]. now exists fuel', js.
Qed.

Lemma SerializeJSONProperty_object fuel h stack l ps o :
  h !! l = Some (OObject ps) ->
  SerializeJSONProperty fuel h stack (VRef l) = Normal o ->
  exists fuel' ms, o = Some (JObj ms) /\
    SerializeJSONObject (SerializeJSONProperty fuel' h (l :: stack)) ps = Normal ms.
Proof.
  intros Hl. destruct fuel as [|fuel']; simpl;
    (case_bool_decide; [discriminate|]); rewrite Hl; [discriminate|].
  intros Hs. apply bind_Normal in Hs as [ms [Hms [= <-]]]. now exists fuel', ms.
Qed.

Lemma createLog_ref host L S m l h r h' :
  createLog host L S m (Some (VRef l)) h = Normal (r, h') ->
  exists j o, SerializeJSONProperty (length h) h [] (VRef l) = Normal (Some j) /\
    h !! l = Some o /\ represents (length h) h' j (payload r).
Proof.
  intros Hlog.
  apply createLog_Normal in Hlog as [_ [[Hfalsy _] | [_ [j [Hs Hrev]]]]];
    [discriminate|]. simpl in Hs.
  destruct (revive_spec j h) as [ext [_ Hrep]]. rewrite Hrev in Hrep. simpl in Hrep.
  destruct (SerializeJSONProperty_ref_Normal _ _ _ _ _ Hs)
    as [_ [fuel' [obj [_ [Hobj _]]]]].
  now exists j, obj.
Qed.

(** X8. The stored copy of an array payload is a new array with as many
    elements; an element that is not a reference is kept, except that
    [undefined], [NaN] and the infinities are stored as [null] and the
    negative zero as zero. *)
Theorem createLog_array (host : Host) (L : Layer) (S : LogStatus) (m : string)
  (l : loc) (xs : list value) (h : heap) (r : TrafficLog) (h' : heap) :
  h !! l = Some (OArray xs) ->
  createLog host L S m (Some (VRef l)) h = Normal (r, h') ->
  exists l' ys,
    payload r = VRef l' /\ length h <= l' /\ h' !! l' = Some (OArray ys) /\
    length ys = length xs /\
    (forall i x, xs !! i = Some x -> primitive x = true ->
       ys !! i = Some (stored_primitive x)).
Proof.
  intros Hl Hlog. destruct (createLog_ref _ _ _ _ _ _ _ _ Hlog) as [j [o [Hs [_ Hrep]]]].
  destruct (SerializeJSONProperty_array _ _ _ _ _ _ Hl Hs) as [fuel' [js [[= ->] Hjs]]].
  apply SerializeJSONArray_Forall2 in Hjs.
  inversion Hrep as [| | | |? l' ys Hl' Hobj Hall Hj Hp|]; subst.
  exists l', ys. split; [reflexivity|]. split; [exact Hl'|]. split; [exact Hobj|].
  split.
  { apply Forall2_length in Hall, Hjs. congruence. }
  intros i x Hx Hprim.
  destruct (Forall2_lookup_l _ _ _ _ _ Hjs Hx) as [ji [Hji [oi [Hoi ->]]]].
  destruct (Forall2_lookup_l _ _ _ _ _ Hall Hji) as [y [Hy Hrepi]].
  rewrite Hy. f_equal.
  rewrite (SerializeJSONProperty_primitive _ _ _ x Hprim) in Hoi.
  injection Hoi as <-.
  exact (represents_stored_primitive (length h) h' x y Hprim Hrepi).
Qed.

Lemma createLog_array_example :
  let host := {| randomUUID := "0b9d4c67-52f1-4e3a-a8d0-6c2f19e7b345"; now := 1700000000000 |} in
  let xs := [VUndefined; VNum NaN; VStr "kept"; VNum (Int 7)] in
  exists r h' l' ys,
    createLog host UI ACCESS "list" (Some (VRef 0)) [OArray xs] = Normal (r, h') /\
    payload r = VRef l' /\ h' !! l' = Some (OArray ys) /\
    length ys = 4 /\ ys !! 0 = Some VNull /\ ys !! 3 = Some (VNum (Int 7)).
Proof.
  cbv zeta.
  match goal with |- context [createLog ?a ?b ?c ?d ?e ?f] =>
    let v := eval vm_compute in (createLog a b c d e f) in
    assert (Hlog : createLog a b c d e f = v) by (vm_compute; reflexivity) end.
  destruct (createLog_array _ _ _ _ 0
              [VUndefined; VNum NaN; VStr "kept"; VNum (Int 7)]
              [OArray [VUndefined; VNum NaN; VStr "kept"; VNum (Int 7)]]
              _ _ eq_refl Hlog)
    as [l' [ys [Hp [_ [Hys [Hlen Hel]]]]]].
  eexists _, _, l', ys. split; [exact Hlog|]. split; [exact Hp|].
  split; [exact Hys|]. split; [exact Hlen|].
  split; [exact (Hel 0 VUndefined eq_refl eq_refl)
         | exact (Hel 3 (VNum (Int 7)) eq_refl eq_refl)].
Defined.

(** X9. The stored copy of an object payload is a new object whose keys
    are, in order, the keys of the payload whose value is not [undefined]:
    those properties are dropped. A property whose value is not a reference
    is kept under its key, with [NaN] and the infinities stored as [null]
    and the negative zero as zero. *)
Theorem createLog_object (host : Host) (L : Layer) (S : LogStatus) (m : string)
  (l : loc) (ps : list (string * value)) (h : heap) (r : TrafficLog) (h' : heap) :
  h !! l = Some (OObject ps) ->
  createLog host L S m (Some (VRef l)) h = Normal (r, h') ->
  exists l' qs,
    payload r = VRef l' /\ length h <= l' /\ h' !! l' = Some (OObject qs) /\
    qs.*1 = (List.filter defined ps).*1 /\
    (forall k x, (k, x) ∈ ps -> primitive x = true -> x <> VUndefined ->
       (k, stored_primitive x) ∈ qs).
Proof.
  intros Hl Hlog. destruct (createLog_ref _ _ _ _ _ _ _ _ Hlog) as [j [o [Hs [_ Hrep]]]].
  destruct (SerializeJSONProperty_object _ _ _ _ _ _ Hl Hs) as [fuel' [ms [[= ->] Hms]]].
  apply SerializeJSONObject_Forall2 in Hms;
    [|intros x o'; apply SerializeJSONProperty_None].
  inversion Hrep as [| | | | |? l' qs Hl' Hobj Hall Hj Hp]; subst.
  exists l', qs. split; [reflexivity|]. split; [exact Hl'|]. split; [exact Hobj|].
  split.
  - clear -Hms Hall. revert qs Hall.
    induction Hms as [|p mj fs ms [Hk _] _ IH]; intros qs Hall;
      inversion Hall as [|? q ? qs' [Hk' _] Hrest]; subst; [reflexivity|].
    simpl. f_equal; [congruence | now apply IH].
  - intros k x Hin Hprim Hdef.
    assert (Hf : (k, x) ∈ List.filter defined ps).
    { apply list_elem_of_In, filter_In. split; [now apply list_elem_of_In|].
      unfold defined; simpl. now destruct x. }
    apply list_elem_of_lookup in Hf as [i Hi].
    destruct (Forall2_lookup_l _ _ _ _ _ Hms Hi) as [mj [Hmj [Hk Hser]]].
    destruct (Forall2_lookup_l _ _ _ _ _ Hall Hmj) as [q [Hq [Hk' Hrepq]]].
    simpl in Hk, Hser.
    rewrite (SerializeJSONProperty_primitive _ _ _ x Hprim) in Hser.
    assert (Hval : q.2 = stored_primitive x).
    { apply (represents_stored_primitive (length h) h' x q.2 Hprim).
      injection Hser as Hj. now rewrite Hj. }
    apply list_elem_of_lookup. exists i. rewrite Hq. f_equal.
    destruct q as [k' y]; simpl in *. congruence.
Qed.

Lemma createLog_object_example :
  let host := {| randomUUID := "0b9d4c67-52f1-4e3a-a8d0-6c2f19e7b345"; now := 1700000000000 |} in
  let ps := [("dropped", VUndefined); ("entries", VNum (Int 15)); ("ratio", VNum NaN)]%string in
  exists r h' l' qs,
    createLog host DATABASE INFO "mounted" (Some (VRef 0)) [OObject ps] = Normal (r, h') /\
    payload r = VRef l' /\ h' !! l' = Some (OObject qs) /\
    qs.*1 = ["entries"; "ratio"]%string /\
    ("entries"%string, VNum (Int 15)) ∈ qs /\ ("ratio"%string, VNull) ∈ qs.
Proof.
  cbv zeta.
  match goal with |- context [createLog ?a ?b ?c ?d ?e ?f] =>
    let v := eval vm_compute in (createLog a b c d e f) in
    assert (Hlog : createLog a b c d e f = v) by (vm_compute; reflexivity) end.
  destruct (createLog_object _ _ _ _ 0
              [("dropped", VUndefined); ("entries", VNum (Int 15)); ("ratio", VNum NaN)]%string
              [OObject [("dropped", VUndefined); ("entries", VNum (Int 15));
                        ("ratio", VNum NaN)]%string]
              _ _ eq_refl Hlog)
    as [l' [qs [Hp [_ [Hqs [Hkeys Hel]]]]]].
  eexists _, _, l', qs. split; [exact Hlog|]. split; [exact Hp|].
  split; [exact Hqs|]. split; [exact Hkeys|]. split.
  - apply (Hel "entries"%string (VNum (Int 15))); [|reflexivity|discriminate].
    apply list_elem_of_further, list_elem_of_here.
  - apply (Hel "ratio"%string (VNum NaN)); [|reflexivity|discriminate].
    apply list_elem_of_further, list_elem_of_further, list_elem_of_here.
Defined.

End CaptureProofs.

(** * More on the catalog queries *)

Module NarrowingProofs.
Import Arrays JSString App QueryProofs StringFacts.

Lemma is_ascii_app (a b : string) :
  is_ascii (a ++ b) = (is_ascii a && is_ascii b)%bool.
Proof.
  induction a as [|c a IH]; [reflexivity|].
  change (is_ascii_char c && is_ascii (a ++ b) =
          is_ascii_char c && is_ascii a && is_ascii b)%bool.
  now rewrite IH, andb_assoc.
Qed.

(** Lower-casing an ASCII term that contains [t] lower-cases [t] inside it. *)
Lemma toLowerCase_within (t pre post : string) :
  is_ascii (pre ++ t ++ post) = true ->
  toLowerCase (pre ++ t ++ post) =
  (map_lower pre ++ toLowerCase t ++ map_lower post)%string.
Proof.
  intros Hall. rewrite (toLowerCase_ascii _ Hall).
  rewrite !is_ascii_app, !andb_true_iff in Hall. destruct Hall as [_ [Ht _]].
  now rewrite (toLowerCase_ascii _ Ht), !map_lower_app.
Qed.

Lemma occurs_in_trans (a b c : string) :
  occurs_in a b -> occurs_in b c -> occurs_in a c.
Proof.
  intros [p1 [q1 ->]] [p2 [q2 ->]]. exists (p2 ++ p1)%string, (q1 ++ q2)%string.
  now rewrite !append_assoc.
Qed.

(** A doc that matches an ASCII term matches every term that occurs in it. *)
Lemma matches_narrows (t pre post : string) (d : ReferenceDoc) :
  is_ascii (pre ++ t ++ post) = true ->
  matches (pre ++ t ++ post) d = true -> matches t d = true.
Proof.
  intros Hall. rewrite !matches_spec. unfold occurs_in_ci.
  assert (Hin : occurs_in (toLowerCase t) (toLowerCase (pre ++ t ++ post))).
  { rewrite (toLowerCase_within _ _ _ Hall). now exists (map_lower pre), (map_lower post). }
  intros [H | [H | H]]; [left | right; left | right; right];
    exact (occurs_in_trans _ _ _ Hin H).
Qed.

Lemma filter_sublist_filter {A} (p q : A -> bool) (l : list A) :
  (forall x, q x = true -> p x = true) ->
  sublist (List.filter q l) (List.filter p l).
Proof.
  intros Hqp. induction l as [|x l IH]; simpl; [constructor|].
  destruct (q x) eqn:Hq.
  - rewrite (Hqp x Hq). now constructor.
  - destruct (p x); [now constructor | exact IH].
Qed.

Lemma filteredDocs_read (σ : store) (KNOWLEDGE_BASE : loc) (t : string) :
  read (filteredDocs KNOWLEDGE_BASE t σ).2 (filteredDocs KNOWLEDGE_BASE t σ).1 =
  List.filter (matches t) (read σ KNOWLEDGE_BASE).
Proof. unfold filteredDocs, Array_filter. apply read_alloc. Qed.

(** X11. A search never changes the catalog, nor any other array that
    exists: the list of matches is a new array. *)
Theorem filteredDocs_frame (σ : store) (KNOWLEDGE_BASE : loc) (t : string) :
  let '(r, σ') := filteredDocs KNOWLEDGE_BASE t σ in
  σ !! r = None /\ is_Some (σ' !! r) /\
  (forall l xs, σ !! l = Some xs -> σ' !! l = Some xs).
Proof.
  unfold filteredDocs, Array_filter, alloc. split; [now apply lookup_ge_None_2|].
  split; [rewrite lookup_app_r by lia; rewrite Nat.sub_diag; now eexists|].
  intros l xs Hl. now apply lookup_app_l_Some.
Qed.

(** X10. Typing more never widens the search: when the term typed is made
    of ASCII characters and contains [t], the entries found with it are
    among the entries found with [t], in the same order, whatever the
    catalog holds. *)
Theorem filteredDocs_narrows (σ : store) (KNOWLEDGE_BASE : loc) (t pre post : string) :
  is_ascii (pre ++ t ++ post) = true ->
  let '(r, σ1) := filteredDocs KNOWLEDGE_BASE t σ in
  let '(r', σ2) := filteredDocs KNOWLEDGE_BASE (pre ++ t ++ post) σ in
  sublist (read σ2 r') (read σ1 r).
Proof.
  intros Hall.
  pose proof (filteredDocs_read σ KNOWLEDGE_BASE t) as H1.
  pose proof (filteredDocs_read σ KNOWLEDGE_BASE (pre ++ t ++ post)) as H2.
  destruct (filteredDocs KNOWLEDGE_BASE t σ) as [r σ1].
  destruct (filteredDocs KNOWLEDGE_BASE (pre ++ t ++ post) σ) as [r' σ2].
  simpl in H1, H2. rewrite H1, H2.
  apply filter_sublist_filter. intros d. now apply matches_narrows.
Qed.

(** The terms [chat] and [chats] on a catalog of three entries, one of them
    with a title outside the ASCII range. *)
Lemma filteredDocs_narrows_example :
  let σ := [[entry "core-chat" "Chat Session" CORE;
             entry "adv-chats" "Σ CHATS" ADVANCED;
             entry "setup" "Client" SETUP]] in
  sublist (read (filteredDocs 0 "chats" σ).2 (filteredDocs 0 "chats" σ).1)
          (read (filteredDocs 0 "chat" σ).2 (filteredDocs 0 "chat" σ).1).
Proof.
  intros σ.
  pose proof (filteredDocs_narrows σ 0 "chat" "" "s" eq_refl) as H.
  destruct (filteredDocs 0 "chat" σ) as [r σ1].
  exact H.
Defined.

End NarrowingProofs.

Module DisplayedProofs.
Import Arrays JSString App QueryProofs SortProofs NarrowingProofs Component.

Section with_collation.
Context `{Collation}.

(** Sorting changes nothing in a list that is already in order. *)
Lemma sorted_by_fixed (l : list ReferenceDoc) :
  StronglySorted title_le l -> sorted_by by_title l = l.
Proof.
  induction l as [|x l IH]; [reflexivity|]. intros Hs.
  apply StronglySorted_inv in Hs as [Hs Hx]. simpl. rewrite (IH Hs).
  destruct l as [|y l]; [reflexivity|]. simpl.
  apply Forall_cons in Hx as [Hxy _]. unfold title_le in Hxy.
  now rewrite (proj2 (Z.ltb_ge _ _) Hxy).
Qed.

Lemma displayDocs_alpha_contents (σ : store) (a : loc) :
  read (displayDocs true a σ).2 (displayDocs true a σ).1 = sorted_by by_title (read σ a).
Proof.
  rewrite displayDocs_alpha_read. simpl.
  exact (read_alloc (sorted_by by_title (read σ a)) σ).
Qed.

(** X12. Sorting is idempotent: sorting the sorted array gives the same
    sequence again, and an input that is already in title order comes back
    as it is. *)
Theorem displayDocs_idempotent (σ : store) (a : loc) :
  let '(r1, σ1) := displayDocs true a σ in
  let '(r2, σ2) := displayDocs true r1 σ1 in
  read σ2 r2 = read σ1 r1 /\
  (StronglySorted title_le (read σ a) -> read σ1 r1 = read σ a).
Proof.
  pose proof (displayDocs_alpha_contents σ a) as H1.
  destruct (displayDocs true a σ) as [r1 σ1]. simpl in H1.
  pose proof (displayDocs_alpha_contents σ1 r1) as H2.
  destruct (displayDocs true r1 σ1) as [r2 σ2]. simpl in H2.
  rewrite H2, H1. split.
  - apply sorted_by_fixed, sorted_by_sorted.
  - apply sorted_by_fixed.
Qed.

(** The list on screen, by its contents. *)
Lemma displayed_contents (KNOWLEDGE_BASE : list ReferenceDoc) (t : string) (b : bool) :
  displayed KNOWLEDGE_BASE t b =
  if b then sorted_by by_title (List.filter (matches t) KNOWLEDGE_BASE)
  else List.filter (matches t) KNOWLEDGE_BASE.
Proof.
  unfold displayed.
  pose proof (filteredDocs_read [KNOWLEDGE_BASE] 0 t) as Hf.
  destruct (filteredDocs 0 t [KNOWLEDGE_BASE]) as [f σ1]. simpl in Hf.
  change (read [KNOWLEDGE_BASE] 0) with KNOWLEDGE_BASE in Hf.
  destruct b.
  - pose proof (displayDocs_alpha_contents σ1 f) as Hd.
    destruct (displayDocs true f σ1) as [d σ2]. simpl in Hd. now rewrite Hd, Hf.
  - simpl. exact Hf.
Qed.

(** X13. In either sort mode the list on screen holds exactly the entries
    of the catalog that match the search term, each as often as the catalog
    has it: it is never longer than the catalog (the counter
    [displayDocs.length / KNOWLEDGE_BASE.length] is at most one), it is the
    whole catalog in catalog order for the empty term without sorting, and
    it is empty, which is when "No entries found" shows, exactly when no
    entry matches. *)
Theorem displayed_spec (KNOWLEDGE_BASE : list ReferenceDoc) (t : string) (b : bool) :
  Permutation (displayed KNOWLEDGE_BASE t b) (List.filter (matches t) KNOWLEDGE_BASE) /\
  (forall d, d ∈ displayed KNOWLEDGE_BASE t b <->
             d ∈ KNOWLEDGE_BASE /\ matches t d = true) /\
  length (displayed KNOWLEDGE_BASE t b) <= length KNOWLEDGE_BASE /\
  displayed KNOWLEDGE_BASE "" false = KNOWLEDGE_BASE /\
  (displayed KNOWLEDGE_BASE t b = [] <->
   forall d, d ∈ KNOWLEDGE_BASE -> matches t d = false).
Proof.
  assert (Hperm : Permutation (displayed KNOWLEDGE_BASE t b)
                    (List.filter (matches t) KNOWLEDGE_BASE)).
  { rewrite displayed_contents. destruct b; [apply sorted_by_perm | reflexivity]. }
  split; [exact Hperm|]. split; [|split; [|split]].
  - intros d. rewrite !list_elem_of_In. rewrite <- filter_In. split.
    + apply Permutation_in. exact Hperm.
    + apply Permutation_in. now symmetry.
  - rewrite (Permutation_length Hperm). apply filter_length_le.
  - rewrite displayed_contents. apply filter_all, matches_empty.
  - split.
    + intros Hnil d Hd. rewrite Hnil in Hperm. apply Permutation_nil in Hperm.
      destruct (matches t d) eqn:Hm; [|reflexivity].
      assert (Hin : In d (List.filter (matches t) KNOWLEDGE_BASE))
        by (apply filter_In; split; [now apply list_elem_of_In | exact Hm]).
      rewrite Hperm in Hin. destruct Hin.
    + intros Hnone. apply Permutation_nil. rewrite Hperm.
      clear Hperm. induction KNOWLEDGE_BASE as [|d l IH]; [reflexivity|]. simpl.
      rewrite (Hnone d) by apply list_elem_of_here.
      apply IH. intros d' Hd'. apply Hnone. now apply list_elem_of_further.
Qed.

End with_collation.

End DisplayedProofs.

(** * Properties of the component: what a session logs and keeps *)

Module SessionProofs.
Import Arrays JSString App JS Logger AppLog Component.
Import QueryProofs SnapshotProofs LogProofs DisplayedProofs.

Lemma addLog_without_payload host L S m w :
  addLog host L S m None w =
  Normal {| heap_of := heap_of w; logs := logs w ++ [log_entry host L S m VUndefined] |}.
Proof. unfold addLog. now rewrite (createLog_falsy host L S m None (heap_of w) eq_refl). Qed.

(** The three kinds of record the component writes. *)
Definition access_record (r : TrafficLog) : Prop :=
  layer r = UI /\ status r = ACCESS /\ payload r = VUndefined.

Definition copy_record (r : TrafficLog) : Prop :=
  layer r = DATABASE /\ status r = COPY /\ payload r = VUndefined.

Definition mount_record (r : TrafficLog) : Prop :=
  layer r = DATABASE /\ status r = INFO /\
  message r = "Reference Database mounted."%string.

Section with_collation.
Context `{Collation}.

(** X14. What an event does. A click on a copy button when the page has no
    Clipboard API throws a [TypeError], so that nothing is logged. When the
    handler of an event completes: a click on an entry, on a copy button
    (the Clipboard API is then there) or on the sort toggle has appended
    exactly one record, without payload and of the kind of the action;
    typing in the search box has logged nothing; Clear has emptied the log;
    and the heap is as it was. *)
Theorem step_audited (KNOWLEDGE_BASE : list ReferenceDoc) (host : Host) (e : Event)
  (st : State) :
  (forall t, e = ClickCopy t Unavailable ->
     step KNOWLEDGE_BASE host e st = Throw TypeError) /\
  (forall st', step KNOWLEDGE_BASE host e st = Normal st' ->
     heap_of (world st') = heap_of (world st) /\
     match e with
     | ClickDoc i =>
         match displayed KNOWLEDGE_BASE (searchTerm st) (sortAlpha st) !! i with
         | Some doc =>
             exists r, logs (world st') = logs (world st) ++ [r] /\ access_record r /\
                       activeDoc st' = doc
         | None => st' = st
         end
     | ClickCopy _ api =>
         (exists fulfilled, api = Available fulfilled) /\
         exists r, logs (world st') = logs (world st) ++ [r] /\ copy_record r
     | ClickSort =>
         exists r, logs (world st') = logs (world st) ++ [r] /\ access_record r
     | TypeSearch _ => logs (world st') = logs (world st)
     | ClickClear => logs (world st') = []
     end).
Proof.
  split; [now intros t ->|]. intros st'.
  destruct e as [i|t [|fulfilled]| |s|]; cbn [step].
  - destruct (displayed KNOWLEDGE_BASE (searchTerm st) (sortAlpha st) !! i) as [doc|].
    + unfold handleDocChange. rewrite addLog_without_payload. simpl.
      intros [= <-]. split; [reflexivity|]. eexists.
      split; [reflexivity|]. now repeat split.
    + now intros [= <-].
  - discriminate.
  - unfold handleCopy. rewrite addLog_without_payload. simpl.
    intros [= <-]. split; [reflexivity|]. split; [now eexists|]. eexists.
    split; [reflexivity|]. now repeat split.
  - unfold toggleSort. rewrite addLog_without_payload. simpl.
    intros [= <-]. split; [reflexivity|]. eexists.
    split; [reflexivity|]. now repeat split.
  - now intros [= <-].
  - now intros [= <-].
Qed.


Lemma session_cons (KNOWLEDGE_BASE : list ReferenceDoc) host e events st st' :
  session KNOWLEDGE_BASE ((host, e) :: events) st = Normal st' ->
  exists st1, step KNOWLEDGE_BASE host e st = Normal st1 /\
              session KNOWLEDGE_BASE events st1 = Normal st'.
Proof. simpl. apply StringifyProofs.bind_Normal. Qed.

(** The object literal the mount effect passes, and the effect's record. *)
Definition entries_literal (n : nat) : object :=
  OObject [("entries"%string, VNum (Int (Z.of_nat n)))].

Lemma mount_nonempty host first rest h :
  mount host (first :: rest) h =
  Normal {| activeDoc := first; searchTerm := ""; sortAlpha := false;
            world := {| heap_of := (h ++ [entries_literal (S (length rest))])
                                     ++ [entries_literal (S (length rest))];
                        logs := [log_entry host DATABASE INFO
                                   "Reference Database mounted."
                                   (VRef (S (length h)))] |};
            clipboard := [] |}.
Proof.
  unfold mount, addLog. cbn [heap_of logs].
  set (lit := OObject [("entries"%string, VNum (Int (Z.of_nat (length (first :: rest)))))]).
  assert (Hrep : represents 0 (h ++ [lit])
                   (JObj [("entries"%string, JNum (Z.of_nat (length (first :: rest))))])
                   (VRef (length h))).
  { apply (represents_obj _ _ _ _ [("entries"%string, VNum (Int (Z.of_nat (length (first :: rest)))))]).
    - lia.
    - rewrite lookup_app_r by lia. now rewrite Nat.sub_diag.
    - constructor; [|constructor]. split; [reflexivity | constructor]. }
  rewrite (createLog_json host DATABASE INFO _ (VRef (length h)) _ _ eq_refl Hrep).
  simpl. rewrite length_app. simpl. rewrite Nat.add_1_r. reflexivity.
Qed.

(** X15. Mounting on a non-empty catalog selects the first entry, with an
    empty search term and no sorting, and logs one record, of layer DATABASE
    and status INFO, whose payload is a new object [{ entries: n }] with [n]
    the size of the catalog: a copy of the literal the effect passes, at
    another location. *)
Theorem mount_spec (host : Host) (first : ReferenceDoc) (rest : list ReferenceDoc)
  (h : heap) :
  exists st r,
    mount host (first :: rest) h = Normal st /\
    activeDoc st = first /\ searchTerm st = ""%string /\ sortAlpha st = false /\
    logs (world st) = [r] /\ mount_record r /\
    payload r = VRef (S (length h)) /\
    heap_of (world st) !! length h = Some (entries_literal (length (first :: rest))) /\
    heap_of (world st) !! S (length h) = Some (entries_literal (length (first :: rest))) /\
    exists ext, heap_of (world st) = h ++ ext.
Proof.
  eexists _, _. split; [apply mount_nonempty|]. cbn.
  repeat (split; [reflexivity|]). split; [now repeat split|].
  split; [reflexivity|]. split; [|split].
  - rewrite <- app_assoc. rewrite lookup_app_r by lia. now rewrite Nat.sub_diag.
  - rewrite <- app_assoc. rewrite lookup_app_r by lia.
    now replace (S (length h) - length h) with 1 by lia.
  - rewrite <- app_assoc. now eexists.
Qed.


(** The shape of the log of a session: after the first record, which may
    be the mount record, only access and copy records. *)
Definition session_log (l : list TrafficLog) : Prop :=
  match l with
  | [] => True
  | r :: rest =>
      (mount_record r \/ access_record r \/ copy_record r) /\
      Forall (fun r => access_record r \/ copy_record r) rest
  end.

Lemma session_log_snoc l r :
  session_log l -> access_record r \/ copy_record r -> session_log (l ++ [r]).
Proof.
  destruct l as [|r0 rest]; simpl; intros Hl Hr.
  - split; [now right | constructor].
  - destruct Hl as [Hr0 Hrest]. split; [exact Hr0|].
    apply Forall_app. split; [exact Hrest | now constructor].
Qed.

Lemma step_session_log (KNOWLEDGE_BASE : list ReferenceDoc) host e st st' :
  step KNOWLEDGE_BASE host e st = Normal st' ->
  session_log (logs (world st)) -> session_log (logs (world st')).
Proof.
  intros Hstep Hlog. destruct e as [i|t api| |s|]; simpl in Hstep.
  - destruct (displayed _ _ _ !! i) as [doc|]; [|now injection Hstep as <-].
    unfold handleDocChange in Hstep. rewrite addLog_without_payload in Hstep.
    injection Hstep as <-. simpl. apply session_log_snoc; [exact Hlog|].
    left. now repeat split.
  - destruct api as [|fulfilled]; [discriminate Hstep|].
    unfold handleCopy in Hstep. rewrite addLog_without_payload in Hstep.
    injection Hstep as <-. simpl. apply session_log_snoc; [exact Hlog|].
    right. now repeat split.
  - unfold toggleSort in Hstep. rewrite addLog_without_payload in Hstep.
    injection Hstep as <-. simpl. apply session_log_snoc; [exact Hlog|].
    left. now repeat split.
  - now injection Hstep as <-.
  - injection Hstep as <-. exact I.
Qed.

(** X17. The log of a session on a mounted component keeps one shape: when
    the session completes, every record is an access record of the UI layer,
    a copy record of the DATABASE layer, both without payload, or the mount
    record; and a record of status INFO can only be the first one. *)
Theorem session_log_shape (KNOWLEDGE_BASE : list ReferenceDoc) (host : Host)
  (h : heap) (events : list (Host * Event)) (st0 st' : State) :
  mount host KNOWLEDGE_BASE h = Normal st0 ->
  session KNOWLEDGE_BASE events st0 = Normal st' ->
  Forall (fun r => mount_record r \/ access_record r \/ copy_record r)
         (logs (world st')) /\
  (forall i r, logs (world st') !! i = Some r -> status r = INFO -> i = 0).
Proof.
  intros Hmount Hsession.
  assert (H0 : session_log (logs (world st0))).
  { destruct KNOWLEDGE_BASE as [|first rest]; [discriminate|].
    rewrite mount_nonempty in Hmount. injection Hmount as <-. simpl.
    split; [|constructor]. left. now repeat split. }
  clear Hmount.
  assert (Hlog : session_log (logs (world st'))).
  { revert st0 H0 Hsession.
    induction events as [|[host' e] events IH]; intros st0 H0 Hsession.
    - simpl in Hsession. now injection Hsession as <-.
    - apply session_cons in Hsession as [st1 [Hstep Hsession]].
      apply (IH st1); [|exact Hsession].
      now apply (step_session_log _ _ _ _ _ Hstep). }
  destruct (logs (world st')) as [|r0 rest]; [split; [constructor | now intros i r]|].
  destruct Hlog as [Hr0 Hrest]. split.
  - constructor; [exact Hr0|]. eapply Forall_impl; [exact Hrest|]. tauto.
  - intros [|i] r Hr Hinfo; [reflexivity|]. simpl in Hr.
    rewrite Forall_forall in Hrest.
    destruct (Hrest r (list_elem_of_lookup_2 _ _ _ Hr)) as [[_ [Hs _]] | [_ [Hs _]]];
      congruence.
Qed.

(** X18. Two clicks on the sort toggle bring the sort mode, and with it the
    list on screen, back to what they were, and they leave two access
    records behind, one for each mode entered. *)
Theorem toggleSort_twice (KNOWLEDGE_BASE : list ReferenceDoc) (host1 host2 : Host)
  (st : State) :
  exists st1 st2 r1 r2,
    toggleSort host1 st = Normal st1 /\ toggleSort host2 st1 = Normal st2 /\
    sortAlpha st1 = negb (sortAlpha st) /\ sortAlpha st2 = sortAlpha st /\
    displayed KNOWLEDGE_BASE (searchTerm st2) (sortAlpha st2) =
      displayed KNOWLEDGE_BASE (searchTerm st) (sortAlpha st) /\
    activeDoc st2 = activeDoc st /\
    logs (world st2) = logs (world st) ++ [r1; r2] /\
    access_record r1 /\ access_record r2 /\
    (message r1, message r2) =
      (if sortAlpha st
       then ("Sort order changed: Default", "Sort order changed: A-Z")
       else ("Sort order changed: A-Z", "Sort order changed: Default"))%string.
Proof.
  unfold toggleSort. rewrite addLog_without_payload. cbn.
  eexists _, _, _, _. split; [reflexivity|]. cbn.
  rewrite ?addLog_without_payload. cbn.
  split; [reflexivity|]. split; [reflexivity|].
  rewrite negb_involutive. split; [reflexivity|]. split; [reflexivity|].
  split; [reflexivity|]. split; [now rewrite <- app_assoc|].
  split; [now repeat split|]. split; [now repeat split|].
  now destruct (sortAlpha st).
Qed.

End with_collation.

Lemma DocCategory_value_inj (c1 c2 : DocCategory) :
  DocCategory_value c1 = DocCategory_value c2 -> c1 = c2.
Proof. destruct c1, c2; simpl; intros Heq; try reflexivity; discriminate Heq. Qed.

Lemma ExecutionPattern_value_inj (p1 p2 : ExecutionPattern) :
  ExecutionPattern_value p1 = ExecutionPattern_value p2 -> p1 = p2.
Proof. destruct p1, p2; simpl; intros Heq; try reflexivity; discriminate Heq. Qed.

Lemma map_JStr_inj (l1 l2 : list string) : map JStr l1 = map JStr l2 -> l1 = l2.
Proof.
  revert l2. induction l1 as [|x l1 IH]; intros [|y l2]; simpl; intros Heq;
    try reflexivity; try discriminate Heq.
  injection Heq as -> Heq. f_equal. now apply IH.
Qed.

Lemma ReferenceDoc_json_inj (d1 d2 : ReferenceDoc) :
  ReferenceDoc_json d1 = ReferenceDoc_json d2 -> d1 = d2.
Proof.
  destruct d1 as [i1 c1 t1 ds1 mt1 ex1 cs1 [ep1 rp1 op1 xp1 ot1]],
           d2 as [i2 c2 t2 ds2 mt2 ex2 cs2 [ep2 rp2 op2 xp2 ot2]].
  unfold ReferenceDoc_json, LaunchConfig_json; simpl. intros Heq.
  injection Heq as -> Hc -> -> -> -> -> -> Hrp Hop Hxp ->.
  apply DocCategory_value_inj in Hc as ->.
  apply map_JStr_inj in Hrp as ->. apply map_JStr_inj in Hop as ->.
  now apply ExecutionPattern_value_inj in Hxp as ->.
Qed.

(** X19. A copy. Without the Clipboard API the handler throws a
    [TypeError] before anything is logged. With it, a copy that completes
    has changed neither the active entry, the search term nor the sort mode,
    and has logged one copy record that names the entry and the kind of
    copy, whether the write was fulfilled or rejected; the text reaches the
    clipboard only when the write is fulfilled. The text is the snippet as
    it is, or the JSON text of the active entry, and that text determines
    the entry: two entries with the same JSON text are the same entry in
    every field. *)
Theorem handleCopy_spec (host : Host) (t : CopyType) (st : State) :
  handleCopy host Unavailable t st = Throw TypeError /\
  forall (fulfilled : bool) (st' : State),
    handleCopy host (Available fulfilled) t st = Normal st' ->
    activeDoc st' = activeDoc st /\ searchTerm st' = searchTerm st /\
    sortAlpha st' = sortAlpha st /\
    (exists r, logs (world st') = logs (world st) ++ [r] /\ copy_record r /\
       message r = ("Content copied to clipboard: " ++ id (activeDoc st)
                      ++ " [" ++ CopyType_value t ++ "]")%string) /\
    exists content,
      clipboard st' = (if fulfilled then content :: clipboard st else clipboard st) /\
      match t with
      | SNIPPET => content = PlainText (codeSnippet (activeDoc st))
      | RAW =>
          exists j, content = JSONText j 2 /\
            forall d, ReferenceDoc_json d = j <-> d = activeDoc st
      end.
Proof.
  split; [reflexivity|]. intros fulfilled st'.
  unfold handleCopy. rewrite addLog_without_payload. cbn.
  intros [= <-]. cbn. repeat (split; [reflexivity|]). split.
  - eexists. split; [reflexivity|]. now repeat split.
  - eexists. split; [reflexivity|].
    destruct t; [reflexivity|]. eexists. split; [reflexivity|].
    intros d. split; [apply ReferenceDoc_json_inj | now intros ->].
Qed.

(** A session on a catalog of two entries: sort, select the second entry
    of the sorted list, copy it. *)
Definition sample_events : list (Host * Event) :=
  [({| randomUUID := "c41a7e02-9f6b-4b1d-8e55-2d7a0c93f618"; now := 2 |}, ClickSort);
   ({| randomUUID := "7e55d1f9-03ac-4c72-b61e-f4a8295d0c7b"; now := 3 |}, ClickDoc 1);
   ({| randomUUID := "9a0c3d5e-1b2f-4a6c-8d7e-5f4e3d2c1b0a"; now := 4 |},
    ClickCopy RAW (Available true))].

Definition sample_catalog : list ReferenceDoc :=
  [entry "a" "zeta" CORE; entry "b" "Alpha" SETUP].

Definition sample_host : Host :=
  {| randomUUID := "0b9d4c67-52f1-4e3a-a8d0-6c2f19e7b345"; now := 1 |}.


Lemma session_log_shape_example :
  exists st0 st',
    mount sample_host sample_catalog [] = Normal st0 /\
    @session codeUnitCollation sample_catalog sample_events st0 = Normal st' /\
    Forall (fun r => mount_record r \/ access_record r \/ copy_record r)
           (logs (world st')) /\
    map status (logs (world st')) = [INFO; ACCESS; ACCESS; COPY].
Proof.
  match goal with |- exists st0 st', ?m = _ /\ _ =>
    let v := eval vm_compute in m in
    assert (Hmount : m = v) by (vm_compute; reflexivity) end.
  match type of Hmount with _ = Normal ?s0 => exists s0 end.
  match goal with |- exists st', _ /\ ?r = _ /\ _ =>
    let v := eval vm_compute in r in
    assert (Hsession : r = v) by (vm_compute; reflexivity) end.
  match type of Hsession with _ = Normal ?s1 => exists s1 end.
  split; [exact Hmount|]. split; [exact Hsession|]. split; [|reflexivity].
  exact (proj1 (@session_log_shape codeUnitCollation _ _ _ _ _ _ Hmount Hsession)).
Defined.

End SessionProofs.

(** * The stamps of a record *)

Module StampProofs.
Import JS JSString Logger LogProofs.

Lemma slice0_prefix (n : nat) (s : string) :
  (exists rest, s = (slice0 n s ++ rest)%string) /\
  String.length (slice0 n s) = Nat.min n (String.length s).
Proof.
  revert s. induction n as [|n IH]; intros s.
  - split; [now exists s | reflexivity].
  - destruct s as [|c s]; [split; [now exists EmptyString | reflexivity]|].
    destruct (IH s) as [[rest Hrest] Hlen]. simpl. split.
    + exists rest. exact (f_equal (String c) Hrest).
    + now rewrite Hlen.
Qed.

(** X20. Every record [createLog] returns carries the arguments of the call
    and the clock reading, and its trace identifier is a prefix of the UUID
    generated, eight characters long, or the whole UUID when that is
    shorter. *)
Theorem createLog_stamps (host : Host) (L : Layer) (S : LogStatus) (m : string)
  (arg : option value) (h : heap) (r : TrafficLog) (h' : heap) :
  createLog host L S m arg h = Normal (r, h') ->
  (exists rest, randomUUID host = (traceId r ++ rest)%string) /\
  String.length (traceId r) = Nat.min 8 (String.length (randomUUID host)) /\
  timestamp r = now host /\ layer r = L /\ status r = S /\ message r = m.
Proof.
  intros Hlog. apply createLog_Normal in Hlog as [-> _]. simpl.
  destruct (slice0_prefix 8 (randomUUID host)) as [Hprefix Hlen].
  now repeat split.
Qed.

Lemma createLog_stamps_example :
  let host := {| randomUUID := "0b9d4c67-52f1-4e3a-a8d0-6c2f19e7b345"; now := 1700000000000 |} in
  exists r h',
    createLog host UI ACCESS "Read access" None [] = Normal (r, h') /\
    traceId r = "0b9d4c67"%string /\ String.length (traceId r) = 8.
Proof.
  cbv zeta. eexists _, _. split; [reflexivity|]. split; [reflexivity|].
  match goal with |- String.length (traceId ?r) = _ =>
    destruct (createLog_stamps
                {| randomUUID := "0b9d4c67-52f1-4e3a-a8d0-6c2f19e7b345"; now := 1700000000000 |}
                UI ACCESS "Read access" None [] r [] eq_refl) as [_ [Hlen _]] end.
  exact Hlen.
Defined.

End StampProofs.
